(** * Settlement synchronisation of chat-backend (watcher.go and main)

    A shallow embedding of [checkPayments], [watchInvoices] and the part of
    [main] that orders them, over an explicit model of the two external
    collaborators: the Firestore collection "messages" and the lnd RPC
    client.  Every external call is a step of a small state monad: it reads
    the answer of the outside world from an oracle indexed by a call
    counter, appends an event to a trace and, for a Firestore update,
    changes the stored documents. *)

From Stdlib Require Import ZArith.
From stdpp Require Import base option list strings gmap fin_maps.

Local Open Scope string_scope.
Local Open Scope list_scope.

(** ** Data *)

(** A field of a Firestore document ([interface{}] in [map[string]interface{}]). *)
Inductive value :=
| VString (s : string)
| VBool (b : bool)
| VNumber (z : Z)
| VNull.

#[global] Instance value_eq_dec : EqDecision value.
Proof. solve_decision. Defined.

(** [firestore.DocumentSnapshot]: the reference of a document and the fields
    it had when the query ran. *)
Record DocumentSnapshot := { Ref : string; Data : gmap string value }.

#[global] Instance DocumentSnapshot_eq_dec : EqDecision DocumentSnapshot.
Proof. solve_decision. Defined.

(** [lnrpc.Invoice] and [lnrpc.PayReq], restricted to the fields the code reads. *)
Record Invoice := { Settled : bool; PaymentRequest : string }.
Record PayReq := { PaymentHash : string }.

(** Go [error] values; [EOF] is the sentinel [io.EOF]. *)
Inductive error :=
| EOF
| RpcError (msg : string).

#[global] Instance error_eq_dec : EqDecision error.
Proof. solve_decision. Defined.

Definition error_string (e : error) : string :=
  match e with
  | EOF => "EOF"
  | RpcError msg => msg
  end.

(** The pair (value, err) returned by a fallible call. *)
Inductive result (A : Type) :=
| Ok (a : A)
| Err (e : error).
Arguments Ok {A} a.
Arguments Err {A} e.

(** A Firestore query on the collection "messages":
    [Where(path, "==", v)] with an optional [Limit(n)]. *)
Record Query := { q_path : string; q_value : value; q_limit : option nat }.

Definition Where (path : string) (v : value) : Query :=
  {| q_path := path; q_value := v; q_limit := None |}.

Definition Limit (n : nat) (q : Query) : Query :=
  {| q_path := q_path q; q_value := q_value q; q_limit := Some n |}.

Definition snapshot_of (kv : string * gmap string value) : DocumentSnapshot :=
  {| Ref := kv.1; Data := kv.2 |}.

Definition field_is (path : string) (v : value) (s : DocumentSnapshot) : Prop :=
  Data s !! path = Some v.

#[global] Instance field_is_dec path v s : Decision (field_is path v s).
Proof. unfold field_is. apply _. Defined.

Definition apply_limit {A} (lim : option nat) (l : list A) : list A :=
  match lim with
  | Some n => take n l
  | None => l
  end.

(** The documents a query returns, in the store's enumeration order. *)
Definition run_query (q : Query) (st : gmap string (gmap string value))
  : list DocumentSnapshot :=
  apply_limit (q_limit q)
    (filter (field_is (q_path q) (q_value q)) (snapshot_of <$> map_to_list st)).

(** ** Events, world and outcomes *)

Inductive event :=
| EvDial (res : option error)
| EvConnClose
| EvGetAll (q : Query) (res : result (list DocumentSnapshot))
| EvDecodePayReq (req : string) (res : result PayReq)
| EvLookupInvoice (hash : string) (res : result Invoice)
| EvUpdate (ref : string) (path : string) (v : value) (res : option error)
| EvSubscribeInvoices (res : option error)
| EvRecv (res : result Invoice)
| EvCloseSend
| EvPrintln (args : list string)
| EvLogPrintln (args : list string)
| EvLogFatalln (args : list string)
| EvStderr (msg : string)
| EvNewApp (res : option error)
| EvFirestore (res : option error)
| EvListenAndServe (https : bool).

Record World := {
  store : gmap string (gmap string value);
  now : nat;
  trace : list event
}.

(** How a Go function call ends: it returns, the process exits
    ([os.Exit]), it panics, or it waits forever in a blocking call. *)
Inductive outcome (A : Type) :=
| Returned (a : A)
| Exited (code : Z)
| Panicked (msg : string)
| Blocked.
Arguments Returned {A} a.
Arguments Exited {A} code.
Arguments Panicked {A} msg.
Arguments Blocked {A}.

Definition M (A : Type) : Type := World -> outcome A * World.

Definition ret {A} (a : A) : M A := fun w => (Returned a, w).

Definition bind {A B} (m : M A) (k : A -> M B) : M B :=
  fun w =>
    match m w with
    | (Returned a, w') => k a w'
    | (Exited c, w') => (Exited c, w')
    | (Panicked msg, w') => (Panicked msg, w')
    | (Blocked, w') => (Blocked, w')
    end.

#[global] Instance M_ret : MRet M := @ret.
#[global] Instance M_bind : MBind M := fun A B k m => bind m k.

Definition emit (e : event) : M unit :=
  fun w => (Returned tt, {| store := store w; now := now w; trace := trace w ++ [e] |}).

(** One external call: read the call counter and advance it. *)
Definition tick : M nat :=
  fun w => (Returned (now w), {| store := store w; now := S (now w); trace := trace w |}).

Definition get_store : M (gmap string (gmap string value)) :=
  fun w => (Returned (store w), w).

Definition set_store (st : gmap string (gmap string value)) : M unit :=
  fun w => (Returned tt, {| store := st; now := now w; trace := trace w |}).

Definition os_Exit {A} (code : Z) : M A := fun w => (Exited code, w).
Definition panic {A} (msg : string) : M A := fun w => (Panicked msg, w).
Definition block {A} : M A := fun w => (Blocked, w).

(** [defer clean()]: the deferred call runs when the body returns or
    panics, not when the process exits or the body never ends. *)
Definition defer {A} (clean : M unit) (body : M A) : M A :=
  fun w =>
    match body w with
    | (Returned a, w') => (clean;; ret a) w'
    | (Panicked msg, w') => (clean;; panic msg) w'
    | r => r
    end.

(** ** The outside world *)

(** What the collaborators answer at each call, by the call counter;
    [router_err] is the error of [rest.MakeRouter], when it gives one, and
    [listen_err] the error [ListenAndServe] returns, when it returns ([None]:
    it serves for the life of the process). *)
Record Env := {
  dial_err : nat -> option error;
  decode_payreq : nat -> string -> result PayReq;
  lookup_invoice : nat -> string -> result Invoice;
  subscribe_invoices : nat -> result (list (result Invoice));
  getall_err : nat -> option error;
  update_err : nat -> string -> option error;
  newapp_err : option error;
  firestore_err : option error;
  httpsEnabled : bool;
  router_err : option error;
  listen_err : option error
}.

(** What [flag.Parse()] does with the command line: it parses it, or (the
    flag set being [flag.ExitOnError]) it prints [usage] on stderr and calls
    [os.Exit(status)], with status 2 (0 when only help was asked). *)
Inductive flag_result :=
| FlagsParsed
| FlagsRejected (usage : string) (status : Z).

(** The run-time error of a failed type assertion [x.(string)]. *)
Definition panic_message : string :=
  "interface conversion: interface {} is not string".

(** ** The program *)

Section Program.

Variable env : Env.

(** [fatal(err)]: a line on stderr, then [os.Exit(1)]. *)
Definition fatal {A} (err : error) : M A :=
  emit (EvStderr (String.append "[chat-backend] " (error_string err)));; os_Exit 1.

(** [log.Fatalln(args...)]: the log line, then [os.Exit(1)]. *)
Definition log_Fatalln {A} (args : list string) : M A :=
  emit (EvLogFatalln args);; os_Exit 1.

(** [getClient()]: [getClientConn] ends the process through [fatal] when the
    certificate, the macaroon or the dial fails; the returned [cleanUp] is
    [conn.Close()]. *)
Definition getClient : M unit :=
  t ← tick;
  emit (EvDial (dial_err env t));;
  match dial_err env t with
  | Some err => fatal err
  | None => mret tt
  end.

Definition clean : M unit := emit EvConnClose.

(** [firebaseDb.Collection("messages").<query>.Documents(ctx).GetAll()] *)
Definition GetAll (q : Query) : M (result (list DocumentSnapshot)) :=
  t ← tick;
  st ← get_store;
  let res := match getall_err env t with
             | Some err => Err err
             | None => Ok (run_query q st)
             end in
  emit (EvGetAll q res);; mret res.

(** [ref.Update(ctx, []firestore.Update{{Path: path, Value: v}})]: fails on a
    transport error and on a document that does not exist; otherwise it
    sets the one field and leaves every other field as it is. *)
Definition Update (ref path : string) (v : value) : M (option error) :=
  t ← tick;
  st ← get_store;
  match update_err env t ref with
  | Some err => emit (EvUpdate ref path v (Some err));; mret (Some err)
  | None =>
      match st !! ref with
      | None =>
          let err := RpcError "NotFound" in
          emit (EvUpdate ref path v (Some err));; mret (Some err)
      | Some d =>
          set_store (<[ref := <[path := v]> d]> st);;
          emit (EvUpdate ref path v None);; mret None
      end
  end.

Definition DecodePayReq (req : string) : M (result PayReq) :=
  t ← tick;
  emit (EvDecodePayReq req (decode_payreq env t req));;
  mret (decode_payreq env t req).

Definition LookupInvoice (hash : string) : M (result Invoice) :=
  t ← tick;
  emit (EvLookupInvoice hash (lookup_invoice env t hash));;
  mret (lookup_invoice env t hash).

Definition fmt_Println (args : list string) : M unit := emit (EvPrintln args).
Definition log_Println (args : list string) : M unit := emit (EvLogPrintln args).

Definition settled_true : value := VBool true.

(** The body of the loop of [checkPayments] (watcher.go, lines 43-67) for one
    snapshot [s]. *)
Definition checkPayment (s : DocumentSnapshot) : M unit :=
  match Data s !! "invoice" with
  | Some (VString invoice) =>
      r ← DecodePayReq invoice;
      match r with
      | Err _ => fmt_Println ["Failed to decode payreq"]
      | Ok decoded =>
          r' ← LookupInvoice (PaymentHash decoded);
          match r' with
          | Err err => fmt_Println ["Failed to find invoice "; error_string err]
          | Ok lnInvoice =>
              if Settled lnInvoice then
                u ← Update (Ref s) "settled" settled_true;
                match u with
                | Some err => log_Println ["Update failed "; error_string err]
                | None => log_Println ["Updated "; invoice]
                end
              else mret tt
          end
      end
  | _ => panic panic_message
  end.

Fixpoint checkPayments_loop (snapshot : list DocumentSnapshot) : M unit :=
  match snapshot with
  | [] => mret tt
  | s :: rest => checkPayment s;; checkPayments_loop rest
  end.

Definition checkPayments : M unit :=
  getClient;;
  defer clean (
    r ← GetAll (Where "settled" (VBool false));
    match r with
    | Err err => log_Fatalln ["Failed to get documents "; error_string err]
    | Ok snapshot => checkPayments_loop snapshot
    end).

(** [c.SubscribeInvoices]: the stream [sub] is the sequence of answers its
    [Recv] will give; when they are used up, [Recv] waits. *)
Definition SubscribeInvoices : M (result (list (result Invoice))) :=
  t ← tick;
  let res := subscribe_invoices env t in
  emit (EvSubscribeInvoices (match res with Ok _ => None | Err err => Some err end));;
  mret res.

Fixpoint update_all (snapshot : list DocumentSnapshot) : M unit :=
  match snapshot with
  | [] => mret tt
  | s :: rest => Update (Ref s) "settled" settled_true;; update_all rest
  end.

(** What [watchInvoices] does with one invoice received without error
    (watcher.go, lines 89-100). *)
Definition on_invoice (invoice : Invoice) : M unit :=
  if Settled invoice then
    fmt_Println ["Received "; PaymentRequest invoice];;
    r ← GetAll (Limit 1 (Where "invoice" (VString (PaymentRequest invoice))));
    match r with
    | Err _ => fmt_Println ["Couldn't find invoice in firebase"]
    | Ok snapshot => update_all snapshot
    end
  else mret tt.

(** The receive loop of [watchInvoices] (watcher.go, lines 79-101). *)
Fixpoint watchInvoices_loop (sub : list (result Invoice)) : M unit :=
  match sub with
  | [] => block
  | r :: sub' =>
      emit (EvRecv r);;
      match r with
      | Err err =>
          (if decide (err = EOF) then emit EvCloseSend else mret tt);;
          fmt_Println [error_string err]
      | Ok invoice => on_invoice invoice;; watchInvoices_loop sub'
      end
  end.

Definition watchInvoices : M unit :=
  getClient;;
  defer clean (
    r ← SubscribeInvoices;
    match r with
    | Err err => fmt_Println [error_string err]
    | Ok sub => watchInvoices_loop sub
    end).

(** [log.Fatal(v...)]: the log line, then [os.Exit(1)]. *)
Definition log_Fatal {A} (args : list string) : M A :=
  emit (EvLogFatalln args);; os_Exit 1.

(** The HTTP front end (watcher.go, lines 277-318): [rest.MakeRouter], whose
    error is fatal, then [log.Fatal(http.ListenAndServe(...))] (or
    [ListenAndServeTLS]), which serves until the listener fails and then
    logs the error and exits with status 1. *)
Definition serve : M unit :=
  match router_err env with
  | Some err => fatal err
  | None =>
      emit (EvListenAndServe (httpsEnabled env));;
      match listen_err env with
      | Some err => log_Fatal [error_string err]
      | None => block
      end
  end.

(** [main] once [flag.Parse()] has returned (watcher.go, lines 254-318):
    the Firebase set-up, then the scanner, the stream consumer and the REST
    front end, one after the other. *)
Definition main : M unit :=
  emit (EvNewApp (newapp_err env));;
  match newapp_err env with
  | Some err => fatal err
  | None =>
      emit (EvFirestore (firestore_err env));;
      match firestore_err env with
      | Some err => fatal err
      | None => checkPayments;; watchInvoices;; serve
      end
  end.

(** The whole of [main] (watcher.go, lines 246-319): [flag.Parse()] on the
    default flag set, which on a command line it rejects (or that asks for
    help) prints the usage and ends the process itself, then the above. *)
Definition main_entry (flags : flag_result) : M unit :=
  match flags with
  | FlagsRejected usage status => emit (EvStderr usage);; os_Exit status
  | FlagsParsed => main
  end.

End Program.

(** ** Reading worlds and traces *)

(** The world [w] after [n] more external calls that left the store alone
    and produced the events [evs]. *)
Definition advance (w : World) (n : nat) (evs : list event) : World :=
  {| store := store w; now := n + now w; trace := trace w ++ evs |}.

(** The same with the store replaced. *)
Definition advance_to (w : World) (st : gmap string (gmap string value))
    (n : nat) (evs : list event) : World :=
  {| store := st; now := n + now w; trace := trace w ++ evs |}.

(** The references on which an update was issued, in order. *)
Definition updates (tr : list event) : list string :=
  omap (fun e => match e with EvUpdate ref _ _ _ => Some ref | _ => None end) tr.

(** The updates that succeeded. *)
Definition updated (tr : list event) : list string :=
  omap (fun e => match e with EvUpdate ref _ _ None => Some ref | _ => None end) tr.

(** The lines [log.Println("Updated ", invoice)] written. *)
Definition updated_lines (tr : list event) : list string :=
  omap (fun e => match e with
                 | EvLogPrintln ["Updated "; invoice] => Some invoice
                 | _ => None
                 end) tr.

(** The payment requests sent to [DecodePayReq], in order. *)
Definition decoded_requests (tr : list event) : list string :=
  omap (fun e => match e with EvDecodePayReq req _ => Some req | _ => None end) tr.

Definition is_log (e : event) : bool :=
  match e with
  | EvPrintln _ | EvLogPrintln _ | EvLogFatalln _ | EvStderr _ => true
  | _ => false
  end.

Definition is_serve (e : event) : bool :=
  match e with
  | EvListenAndServe _ => true
  | _ => false
  end.

Definition is_subscribe (e : event) : bool :=
  match e with
  | EvSubscribeInvoices _ => true
  | _ => false
  end.

(** The value of the field "invoice" when it is a string. *)
Definition invoice_of (d : gmap string value) : option string :=
  match d !! "invoice" with
  | Some (VString invoice) => Some invoice
  | _ => None
  end.

Definition mark_settled (d : gmap string value) : gmap string value :=
  <["settled" := VBool true]> d.

Definition is_settled (st : gmap string (gmap string value)) (ref : string) : Prop :=
  st !! ref ≫= (fun d => d !! "settled") = Some (VBool true).

#[global] Instance is_settled_dec st ref : Decision (is_settled st ref).
Proof. unfold is_settled. apply _. Defined.

(** The ledger said, in the trace, that the invoice of payment request [pr]
    is settled: by a lookup of the hash [pr] decodes to, or by an invoice
    received on the subscription. *)
Definition ledger_settled (tr : list event) (pr : string) : Prop :=
  (exists decoded inv,
      EvDecodePayReq pr (Ok decoded) ∈ tr /\
      EvLookupInvoice (PaymentHash decoded) (Ok inv) ∈ tr /\
      Settled inv = true)
  \/ (exists inv, EvRecv (Ok inv) ∈ tr /\ Settled inv = true /\ PaymentRequest inv = pr).

(** All the documents whose field "invoice" is the string [pr]. *)
Definition matching (pr : string) (st : gmap string (gmap string value))
  : list DocumentSnapshot :=
  run_query (Where "invoice" (VString pr)) st.

(** The documents the store holds as unsettled. *)
Definition unsettled (st : gmap string (gmap string value)) : list DocumentSnapshot :=
  run_query (Where "settled" (VBool false)) st.

(** The two update paths, and a run of any sequence of them on one store
    (a path that exits, panics or waits leaves the store as it made it). *)
Inductive op := OpCheckPayments | OpWatchInvoices.

Definition run_op (env : Env) (o : op) (w : World) : World :=
  match o with
  | OpCheckPayments => (checkPayments env w).2
  | OpWatchInvoices => (watchInvoices env w).2
  end.

Definition run_ops (env : Env) (ops : list op) (w : World) : World :=
  foldl (fun w o => run_op env o w) w ops.

(** The events one received invoice can cause after its [EvRecv]. *)
Definition consumer_event (e : event) : Prop :=
  match e with
  | EvPrintln _ | EvGetAll _ _ | EvRecv (Ok _) => True
  | EvUpdate _ path v _ => path = "settled" /\ v = VBool true
  | _ => False
  end.

(** The events a scanner pass can cause. *)
Definition scanner_event (e : event) : Prop :=
  match e with
  | EvDial _ | EvConnClose | EvGetAll _ _ | EvDecodePayReq _ _
  | EvLookupInvoice _ _ | EvPrintln _ | EvLogPrintln _ | EvLogFatalln _
  | EvStderr _ => True
  | EvUpdate _ path v _ => path = "settled" /\ v = VBool true
  | _ => False
  end.

(** The answer of an update issued at call [t] on the store [st]. *)
Definition update_answer (env : Env) (t : nat)
    (st : gmap string (gmap string value)) (ref : string) : option error :=
  match update_err env t ref with
  | Some err => Some err
  | None =>
      match st !! ref with
      | None => Some (RpcError "NotFound")
      | Some _ => None
      end
  end.

(** The payment requests of the snapshots that carry one. *)
Definition invoices (snapshot : list DocumentSnapshot) : list string :=
  omap (fun s => invoice_of (Data s)) snapshot.

(** The ways one turn of the loop of [checkPayments] goes for a snapshot [s]
    whose field "invoice" is the string [invoice]: from the world [w] to
    the world given last. *)
Inductive scanned (env : Env) (s : DocumentSnapshot) (invoice : string)
    (w : World) : World -> Prop :=
| scanned_decode_failed err :
    decode_payreq env (now w) invoice = Err err ->
    scanned env s invoice w
      (advance w 1
         [EvDecodePayReq invoice (Err err);
          EvPrintln ["Failed to decode payreq"]])
| scanned_lookup_failed decoded err :
    decode_payreq env (now w) invoice = Ok decoded ->
    lookup_invoice env (S (now w)) (PaymentHash decoded) = Err err ->
    scanned env s invoice w
      (advance w 2
         [EvDecodePayReq invoice (Ok decoded);
          EvLookupInvoice (PaymentHash decoded) (Err err);
          EvPrintln ["Failed to find invoice "; error_string err]])
| scanned_not_settled decoded lnInvoice :
    decode_payreq env (now w) invoice = Ok decoded ->
    lookup_invoice env (S (now w)) (PaymentHash decoded) = Ok lnInvoice ->
    Settled lnInvoice = false ->
    scanned env s invoice w
      (advance w 2
         [EvDecodePayReq invoice (Ok decoded);
          EvLookupInvoice (PaymentHash decoded) (Ok lnInvoice)])
| scanned_update_failed decoded lnInvoice err :
    decode_payreq env (now w) invoice = Ok decoded ->
    lookup_invoice env (S (now w)) (PaymentHash decoded) = Ok lnInvoice ->
    Settled lnInvoice = true ->
    update_answer env (S (S (now w))) (store w) (Ref s) = Some err ->
    scanned env s invoice w
      (advance w 3
         [EvDecodePayReq invoice (Ok decoded);
          EvLookupInvoice (PaymentHash decoded) (Ok lnInvoice);
          EvUpdate (Ref s) "settled" settled_true (Some err);
          EvLogPrintln ["Update failed "; error_string err]])
| scanned_updated decoded lnInvoice d :
    decode_payreq env (now w) invoice = Ok decoded ->
    lookup_invoice env (S (now w)) (PaymentHash decoded) = Ok lnInvoice ->
    Settled lnInvoice = true ->
    update_err env (S (S (now w))) (Ref s) = None ->
    store w !! Ref s = Some d ->
    scanned env s invoice w
      (advance_to w (<[Ref s := mark_settled d]> (store w)) 3
         [EvDecodePayReq invoice (Ok decoded);
          EvLookupInvoice (PaymentHash decoded) (Ok lnInvoice);
          EvUpdate (Ref s) "settled" settled_true None;
          EvLogPrintln ["Updated "; invoice]]).

(** The turns of the records of a list, one after the other, each going
    one of the ways of [scanned]. *)
Inductive scanned_each (env : Env) : list DocumentSnapshot -> World -> World -> Prop :=
| scanned_each_nil w : scanned_each env [] w w
| scanned_each_cons s invoice l w w1 w2 :
    invoice_of (Data s) = Some invoice ->
    scanned env s invoice w w1 ->
    scanned_each env l w1 w2 ->
    scanned_each env (s :: l) w w2.

(** A record's turn fails: its payment request does not decode, the ledger
    does not find the invoice, or the update of a settled invoice fails. *)
Definition record_fails (env : Env) (s : DocumentSnapshot) (invoice : string)
    (w : World) : Prop :=
  (exists err, decode_payreq env (now w) invoice = Err err)
  \/ (exists decoded err,
        decode_payreq env (now w) invoice = Ok decoded /\
        lookup_invoice env (S (now w)) (PaymentHash decoded) = Err err)
  \/ (exists decoded lnInvoice err,
        decode_payreq env (now w) invoice = Ok decoded /\
        lookup_invoice env (S (now w)) (PaymentHash decoded) = Ok lnInvoice /\
        Settled lnInvoice = true /\
        update_answer env (S (S (now w))) (store w) (Ref s) = Some err).

(** An event that writes to the store writes [true] to "settled". *)
Definition write_ok (e : event) : Prop :=
  match e with
  | EvUpdate _ path v _ => path = "settled" /\ v = VBool true
  | _ => True
  end.

(** The settlement invariant, relative to the store [st0] a run started
    from: every write so far set "settled" to [true], and every document is
    as it was or is its old self marked settled, the latter only with a
    report of the ledger for its payment request in the trace. *)
Definition settlement_inv (st0 : gmap string (gmap string value)) (w : World) : Prop :=
  Forall write_ok (trace w) /\
  forall ref,
    store w !! ref = st0 !! ref \/
    exists d0 pr,
      st0 !! ref = Some d0 /\
      store w !! ref = Some (mark_settled d0) /\
      invoice_of d0 = Some pr /\
      ledger_settled (trace w) pr.

(** A snapshot taken of a document that had the same payment request when
    the run started. *)
Definition same_invoice (st0 : gmap string (gmap string value))
    (s : DocumentSnapshot) : Prop :=
  forall d0, st0 !! Ref s = Some d0 -> invoice_of d0 = invoice_of (Data s).

(** What a scanner pass may have done between two worlds: some calls, and
    events of the scanner among which every successful update has its line
    "Updated". *)
Definition scan_effect (w w' : World) : Prop :=
  exists st n evs,
    w' = advance_to w st n evs /\
    length (updated evs) = length (updated_lines evs) /\
    Forall scanner_event evs.

(** ** Concrete stores and worlds used to exercise the model *)

(** The document of a message: its payment request and its flag. *)
Definition message (invoice : string) (settled : bool) : gmap string value :=
  <["invoice" := VString invoice]> (<["settled" := VBool settled]> ∅).

Definition start (st : gmap string (gmap string value)) : World :=
  {| store := st; now := 0; trace := [] |}.

(** An environment in which every call succeeds, every payment request
    [pr] decodes to the hash ["hash:" ++ pr], the invoices listed in
    [paid] (by hash) are settled, and the subscription delivers [sub]. *)
Definition calm (paid : list string) (sub : list (result Invoice)) : Env :=
  {| dial_err := fun _ => None;
     decode_payreq := fun _ pr => Ok {| PaymentHash := String.append "hash:" pr |};
     lookup_invoice := fun _ h =>
       Ok {| Settled := bool_decide (h ∈ paid); PaymentRequest := "" |};
     subscribe_invoices := fun _ => Ok sub;
     getall_err := fun _ => None;
     update_err := fun _ _ => None;
     newapp_err := None;
     firestore_err := None;
     httpsEnabled := false;
     router_err := None;
     listen_err := None |}.

Definition settled_invoice (pr : string) : Invoice :=
  {| Settled := true; PaymentRequest := pr |}.

(** Two messages that carry the same payment request. *)
Definition twins : gmap string (gmap string value) :=
  <["m1" := message "pr" false]> (<["m2" := message "pr" false]> ∅).

(** As [calm], but every Firestore update fails. *)
Definition updates_down (paid : list string) (sub : list (result Invoice)) : Env :=
  {| dial_err := fun _ => None;
     decode_payreq := decode_payreq (calm paid sub);
     lookup_invoice := lookup_invoice (calm paid sub);
     subscribe_invoices := fun _ => Ok sub;
     getall_err := fun _ => None;
     update_err := fun _ _ => Some (RpcError "unavailable");
     newapp_err := None;
     firestore_err := None;
     httpsEnabled := false;
     router_err := None;
     listen_err := None |}.

(** As [calm], but every Firestore query fails. *)
Definition queries_down : Env :=
  {| dial_err := fun _ => None;
     decode_payreq := decode_payreq (calm [] []);
     lookup_invoice := lookup_invoice (calm [] []);
     subscribe_invoices := fun _ => Ok [];
     getall_err := fun _ => Some (RpcError "unavailable");
     update_err := fun _ _ => None;
     newapp_err := None;
     firestore_err := None;
     httpsEnabled := false;
     router_err := None;
     listen_err := None |}.

(** One message whose invoice the ledger holds as settled. *)
Definition paid_message : gmap string (gmap string value) :=
  <["m1" := message "pr1" false]> ∅.

(** A message beside a document that has no field "invoice". *)
Definition with_stray : gmap string (gmap string value) :=
  <["m1" := message "pr1" false]> (<["m2" := <["settled" := VBool false]> ∅]> ∅).

(** As [calm], but the ledger finds no invoice. *)
Definition ledger_empty : Env :=
  {| dial_err := fun _ => None;
     decode_payreq := decode_payreq (calm [] []);
     lookup_invoice := fun _ _ => Err (RpcError "unable to locate invoice");
     subscribe_invoices := fun _ => Ok [];
     getall_err := fun _ => None;
     update_err := fun _ _ => None;
     newapp_err := None;
     firestore_err := None;
     httpsEnabled := false;
     router_err := None;
     listen_err := None |}.

(** ** Further readings of traces *)

(** The events the turn of one record in [checkPayments] can cause. *)
Definition record_event (e : event) : Prop :=
  match e with
  | EvDecodePayReq _ _ | EvLookupInvoice _ _ | EvPrintln _ | EvLogPrintln _ => True
  | EvUpdate _ path v _ => path = "settled" /\ v = VBool true
  | _ => False
  end.

(** The events the receive loop of [watchInvoices] can cause. *)
Definition stream_event (e : event) : Prop :=
  match e with
  | EvRecv _ | EvCloseSend | EvPrintln _ | EvGetAll _ _ => True
  | EvUpdate _ path v _ => path = "settled" /\ v = VBool true
  | _ => False
  end.

(** A call of the scanner to the ledger. *)
Definition is_ledger_scan (e : event) : bool :=
  match e with
  | EvDecodePayReq _ _ | EvLookupInvoice _ _ => true
  | _ => false
  end.

(** The number of times a connection to lnd was closed. *)
Definition conn_closes (tr : list event) : nat :=
  length (omap (fun e => match e with EvConnClose => Some tt | _ => None end) tr).

(** The number of calls of [Recv]. *)
Definition receives (tr : list event) : nat :=
  length (omap (fun e => match e with EvRecv _ => Some tt | _ => None end) tr).

(** The events of [main] up to the end of the scanner, and after it. *)
Definition startup_event (e : event) : Prop :=
  match e with
  | EvNewApp _ | EvFirestore _ => True
  | _ => scanner_event e
  end.

Definition late_event (e : event) : Prop :=
  match e with
  | EvDial _ | EvStderr _ | EvSubscribeInvoices _ | EvConnClose
  | EvListenAndServe _ | EvLogFatalln _ => True
  | _ => stream_event e
  end.

(** ** Paths of the certificate and the macaroon *)

Section Paths.

(** [filepath.Clean], [os.ExpandEnv] and [filepath.Join] of the Go library;
    the home directory [user.Current()] gives, when it gives one, and the
    value of the environment variable HOME. *)
Variable Clean ExpandEnv : string -> string.
Variable Join : string -> string -> string.
Variable current_home : option string.
Variable env_HOME : string.

(** [strings.HasPrefix(s, prefix)] *)
Fixpoint HasPrefix (s prefix : string) {struct prefix} : bool :=
  match prefix with
  | EmptyString => true
  | String c prefix' =>
      match s with
      | EmptyString => false
      | String d s' => if Ascii.eqb c d then HasPrefix s' prefix' else false
      end
  end.

(** [strings.Replace(s, old, new, 1)]: the first occurrence of [old] in [s]
    replaced by [new]. *)
Fixpoint replace_first (old new s : string) : string :=
  if HasPrefix s old then
    String.append new
      (String.substring (String.length old)
         (String.length s - String.length old) s)
  else
    match s with
    | EmptyString => EmptyString
    | String c s' => String c (replace_first old new s')
    end.

Definition homeDir : string :=
  match current_home with
  | Some dir => dir
  | None => env_HOME
  end.

Definition cleanAndExpandPath (path : string) : string :=
  let path' :=
    if HasPrefix path "~" then replace_first "~" homeDir path else path in
  Clean (ExpandEnv path').

Definition defaultTLSCertFilename : string := "tls.cert".
Definition defaultMacaroonFilename : string := "admin.macaroon".

(** The package variables [getClientConn] reads and writes. *)
Record Globals := { tlsCert : string; rpcMacaroon : string; lndDir : string }.

Variable defaultLndDir : string.

Definition defaultTLSCertPath : string := Join defaultLndDir defaultTLSCertFilename.
Definition defaultMacaroonPath : string := Join defaultLndDir defaultMacaroonFilename.

(** The first part of [getClientConn] (watcher.go, lines 170-187): what
    it leaves in the package variables. *)
Definition getClientConn_paths (g : Globals) : Globals :=
  let lndDir' := cleanAndExpandPath (lndDir g) in
  if decide (lndDir' = defaultLndDir) then g
  else
    {| tlsCert :=
         if decide (cleanAndExpandPath (tlsCert g) = defaultTLSCertPath)
         then Join lndDir' defaultTLSCertFilename
         else tlsCert g;
       rpcMacaroon :=
         if decide (cleanAndExpandPath (rpcMacaroon g) = defaultMacaroonPath)
         then Join lndDir' defaultMacaroonFilename
         else rpcMacaroon g;
       lndDir := lndDir g |}.

(** The files [getClientConn] then loads the certificate and the macaroon
    from. *)
Definition tlsCertPath (g : Globals) : string :=
  cleanAndExpandPath (tlsCert (getClientConn_paths g)).

Definition macPath (g : Globals) : string :=
  cleanAndExpandPath (rpcMacaroon (getClientConn_paths g)).

End Paths.

(** A settled message beside an unsettled one. *)
Definition archived : gmap string (gmap string value) :=
  <["m1" := message "pr1" true]> (<["m2" := message "pr2" false]> ∅).

Definition unsettled_invoice (pr : string) : Invoice :=
  {| Settled := false; PaymentRequest := pr |}.

(** Package variables as the flags leave them, with a certificate given
    explicitly, and a join of path elements for the examples. *)
Definition join_slash (dir file : string) : string :=
  String.append dir (String.append "/" file).

Definition flags_with_cert : Globals :=
  {| tlsCert := "/etc/lnd/my.cert";
     rpcMacaroon := "/data/lnd/admin.macaroon";
     lndDir := "/data/other" |}.

(** As [calm], but lnd refuses the subscription. *)
Definition subscription_down : Env :=
  {| dial_err := fun _ => None;
     decode_payreq := decode_payreq (calm [] []);
     lookup_invoice := lookup_invoice (calm [] []);
     subscribe_invoices := fun _ => Err (RpcError "permission denied");
     getall_err := fun _ => None;
     update_err := fun _ _ => None;
     newapp_err := None;
     firestore_err := None;
     httpsEnabled := false;
     router_err := None;
     listen_err := None |}.

(** ** Equations of the primitive steps *)

Section Steps.

Variable env : Env.

Lemma advance_advance w n m e f :
  advance (advance w n e) m f = advance w (m + n) (e ++ f).
Proof.
  unfold advance; cbn. f_equal; [lia | by rewrite app_assoc].
Qed.

Lemma advance_to_advance w st n m e f :
  advance_to (advance w n e) st m f = advance_to w st (m + n) (e ++ f).
Proof.
  unfold advance, advance_to; cbn. f_equal; [lia | by rewrite app_assoc].
Qed.

Lemma advance_to_same w n e : advance_to w (store w) n e = advance w n e.
Proof. reflexivity. Qed.

Lemma bind_eq {A B} (m : M A) (k : A -> M B) w a w' :
  m w = (Returned a, w') -> (m ≫= k) w = k a w'.
Proof.
  intros H. unfold mbind, M_bind, bind. by rewrite H.
Qed.

Lemma bind_stop {A B} (m : M A) (k : A -> M B) w :
  (forall a, (m w).1 <> Returned a) ->
  ((m ≫= k) w).2 = (m w).2 /\
  (forall b, ((m ≫= k) w).1 <> Returned b).
Proof.
  intros H. unfold mbind, M_bind, bind.
  destruct (m w) as [[a| | |] w']; cbn in *; [by destruct (H a)|done..].
Qed.

Lemma DecodePayReq_eq req w :
  DecodePayReq env req w =
  (Returned (decode_payreq env (now w) req),
   advance w 1 [EvDecodePayReq req (decode_payreq env (now w) req)]).
Proof. reflexivity. Qed.

Lemma LookupInvoice_eq hash w :
  LookupInvoice env hash w =
  (Returned (lookup_invoice env (now w) hash),
   advance w 1 [EvLookupInvoice hash (lookup_invoice env (now w) hash)]).
Proof. reflexivity. Qed.

Lemma GetAll_ok q w :
  getall_err env (now w) = None ->
  GetAll env q w =
  (Returned (Ok (run_query q (store w))),
   advance w 1 [EvGetAll q (Ok (run_query q (store w)))]).
Proof.
  intros H. unfold GetAll, mbind, M_bind, bind; cbn. by rewrite H.
Qed.

Lemma GetAll_err q w err :
  getall_err env (now w) = Some err ->
  GetAll env q w = (Returned (Err err), advance w 1 [EvGetAll q (Err err)]).
Proof.
  intros H. unfold GetAll, mbind, M_bind, bind; cbn. by rewrite H.
Qed.

Lemma Update_ok ref path v w d :
  update_err env (now w) ref = None ->
  store w !! ref = Some d ->
  Update env ref path v w =
  (Returned None,
   advance_to w (<[ref := <[path := v]> d]> (store w)) 1 [EvUpdate ref path v None]).
Proof.
  intros H1 H2. unfold Update, mbind, M_bind, bind; cbn. by rewrite H1, H2.
Qed.

Lemma Update_err ref path v w err :
  update_err env (now w) ref = Some err ->
  Update env ref path v w =
  (Returned (Some err), advance w 1 [EvUpdate ref path v (Some err)]).
Proof.
  intros H1. unfold Update, mbind, M_bind, bind; cbn. by rewrite H1.
Qed.

Lemma Update_missing ref path v w :
  update_err env (now w) ref = None ->
  store w !! ref = None ->
  Update env ref path v w =
  (Returned (Some (RpcError "NotFound")),
   advance w 1 [EvUpdate ref path v (Some (RpcError "NotFound"))]).
Proof.
  intros H1 H2. unfold Update, mbind, M_bind, bind; cbn. by rewrite H1, H2.
Qed.

(** An update always returns, after one call and one event; it changes the
    store only when it succeeds, and then only the one field of the one
    document. *)
Lemma Update_cases ref path v w :
  exists res st,
    Update env ref path v w =
      (Returned res, advance_to w st 1 [EvUpdate ref path v res]) /\
    ((res = None /\ exists d, store w !! ref = Some d /\
                             st = <[ref := <[path := v]> d]> (store w))
     \/ (res <> None /\ st = store w)).
Proof.
  destruct (update_err env (now w) ref) as [err|] eqn:E.
  - exists (Some err), (store w). split; [by apply Update_err|]. by right.
  - destruct (store w !! ref) as [d|] eqn:D.
    + exists None, (<[ref := <[path := v]> d]> (store w)).
      split; [by apply Update_ok|]. left. eauto.
    + exists (Some (RpcError "NotFound")), (store w).
      split; [by apply Update_missing|]. by right.
Qed.

End Steps.

(** ** The stream consumer *)

Section Consumer.

Variable env : Env.

Lemma emit_eq e w : emit e w = (Returned tt, advance w 0 [e]).
Proof. reflexivity. Qed.

Lemma update_all_run l w :
  exists st n evs,
    update_all env l w = (Returned tt, advance_to w st n evs) /\
    updates evs = Ref <$> l /\
    Forall consumer_event evs /\
    Forall (fun e => is_log e = false) evs.
Proof.
  revert w. induction l as [|s l IH]; intros w.
  - exists (store w), 0, []. repeat split; try constructor.
    unfold advance_to; cbn. destruct w; cbn. by rewrite app_nil_r.
  - destruct (Update_cases env (Ref s) "settled" settled_true w)
      as (res & st1 & Hup & _).
    destruct (IH (advance_to w st1 1 [EvUpdate (Ref s) "settled" settled_true res]))
      as (st & n & evs & Hrun & Hupd & Hev & Hlog).
    exists st, (n + 1), (EvUpdate (Ref s) "settled" settled_true res :: evs).
    split; [|split; [|split]].
    + cbn [update_all]. rewrite (bind_eq _ _ _ _ _ Hup), Hrun.
      f_equal. unfold advance_to; cbn. f_equal; [lia|].
      by rewrite <- app_assoc.
    + cbn. f_equal. exact Hupd.
    + constructor; [by cbn|done].
    + constructor; [by cbn|done].
Qed.

Lemma on_invoice_unsettled inv w :
  Settled inv = false -> on_invoice env inv w = (Returned tt, w).
Proof. intros H. unfold on_invoice. by rewrite H. Qed.

Lemma on_invoice_query_failed inv w err :
  Settled inv = true ->
  getall_err env (now w) = Some err ->
  on_invoice env inv w =
  (Returned tt,
   advance w 1
     [EvPrintln ["Received "; PaymentRequest inv];
      EvGetAll (Limit 1 (Where "invoice" (VString (PaymentRequest inv)))) (Err err);
      EvPrintln ["Couldn't find invoice in firebase"]]).
Proof.
  intros Hs Hq. unfold on_invoice. rewrite Hs.
  unfold fmt_Println. rewrite (bind_eq _ _ _ _ _ (emit_eq _ _)).
  erewrite bind_eq; [|by apply GetAll_err].
  cbv beta iota. rewrite emit_eq, !advance_advance. reflexivity.
Qed.

Lemma on_invoice_query_ok inv w :
  Settled inv = true ->
  getall_err env (now w) = None ->
  on_invoice env inv w =
  update_all env (take 1 (matching (PaymentRequest inv) (store w)))
    (advance w 1
       [EvPrintln ["Received "; PaymentRequest inv];
        EvGetAll (Limit 1 (Where "invoice" (VString (PaymentRequest inv))))
          (Ok (take 1 (matching (PaymentRequest inv) (store w))))]).
Proof.
  intros Hs Hq. unfold on_invoice. rewrite Hs.
  unfold fmt_Println. rewrite (bind_eq _ _ _ _ _ (emit_eq _ _)).
  erewrite bind_eq; [|by apply GetAll_ok].
  cbv beta iota. rewrite !advance_advance. reflexivity.
Qed.

(** Whatever the store and the outside world do, the handling of one
    received invoice returns to the receive loop. *)
Lemma on_invoice_run inv w :
  exists st n evs,
    on_invoice env inv w = (Returned tt, advance_to w st n evs) /\
    Forall consumer_event evs.
Proof.
  destruct (Settled inv) eqn:Hs.
  - destruct (getall_err env (now w)) as [err|] eqn:Hq.
    + eexists (store w), 1, _. split; [by apply on_invoice_query_failed|].
      repeat constructor.
    + rewrite on_invoice_query_ok by done.
      edestruct update_all_run as (st & n & evs & -> & _ & Hev & _).
      eexists st, _, _. rewrite advance_to_advance. split; [reflexivity|].
      apply Forall_app. split; [repeat constructor|done].
  - exists (store w), 0, []. split; [|constructor].
    rewrite on_invoice_unsettled by done.
    unfold advance_to. destruct w; cbn. by rewrite app_nil_r.
Qed.

(** A run of invoices received without error is consumed one by one, and
    the loop goes on with what follows. *)
Lemma watchInvoices_loop_invoices invs w :
  exists st n evs,
    (forall sub, watchInvoices_loop env ((Ok <$> invs) ++ sub) w =
                 watchInvoices_loop env sub (advance_to w st n evs)) /\
    Forall consumer_event evs /\
    (forall inv, inv ∈ invs -> EvRecv (Ok inv) ∈ evs).
Proof.
  revert w. induction invs as [|inv invs IH]; intros w.
  - exists (store w), 0, []. split; [|split; [constructor|]].
    + intros sub. cbn. f_equal.
      unfold advance_to. destruct w; cbn. by rewrite app_nil_r.
    + intros inv Hin. by apply elem_of_nil in Hin.
  - destruct (on_invoice_run inv (advance w 0 [EvRecv (Ok inv)]))
      as (st1 & n1 & evs1 & Hrun & Hev1).
    destruct (IH (advance_to (advance w 0 [EvRecv (Ok inv)]) st1 n1 evs1))
      as (st & n & evs & Hloop & Hev & Hrecv).
    exists st, (n + (n1 + 0)), ((EvRecv (Ok inv) :: evs1) ++ evs).
    split; [|split].
    + intros sub. cbn [fmap list_fmap app watchInvoices_loop].
      rewrite (bind_eq _ _ _ _ _ (emit_eq _ _)).
      rewrite (bind_eq _ _ _ _ _ Hrun).
      cbv beta iota. rewrite Hloop. f_equal. unfold advance_to, advance; cbn.
      f_equal; [lia|]. by rewrite <- !app_assoc.
    + apply Forall_app. split; [|done]. constructor; [by cbn|done].
    + intros inv' Hin. apply elem_of_cons in Hin as [->|Hin].
      * apply elem_of_app. left. apply list_elem_of_here.
      * apply elem_of_app. right. by apply Hrecv.
Qed.

End Consumer.

(** ** What the stream consumer does *)

Section ConsumerFacts.

Variable env : Env.

Lemma getClient_ok w :
  dial_err env (now w) = None ->
  getClient env w = (Returned tt, advance w 1 [EvDial None]).
Proof.
  intros H. unfold getClient, mbind, M_bind, bind; cbn. by rewrite H.
Qed.

Lemma getClient_failed w err :
  dial_err env (now w) = Some err ->
  getClient env w =
  (Exited 1,
   advance w 1 [EvDial (Some err);
                EvStderr (String.append "[chat-backend] " (error_string err))]).
Proof.
  intros H. unfold getClient, fatal, mbind, M_bind, bind; cbn. rewrite H; cbn.
  unfold advance; cbn. by rewrite <- app_assoc.
Qed.

Lemma defer_returned {A} (body : M A) w a w' :
  body w = (Returned a, w') ->
  defer clean body w = (Returned a, advance w' 0 [EvConnClose]).
Proof. intros H. unfold defer. by rewrite H. Qed.

Lemma defer_panicked {A} (body : M A) w msg w' :
  body w = (Panicked msg, w') ->
  defer clean body w = (Panicked msg, advance w' 0 [EvConnClose]).
Proof. intros H. unfold defer. by rewrite H. Qed.

Lemma defer_exited {A} (body : M A) w c w' :
  body w = (Exited c, w') -> defer clean body w = (Exited c, w').
Proof. intros H. unfold defer. by rewrite H. Qed.

Lemma defer_blocked {A} (body : M A) w w' :
  body w = (Blocked, w') -> defer clean body w = (Blocked, w').
Proof. intros H. unfold defer. by rewrite H. Qed.

Lemma watchInvoices_subscribed w sub :
  dial_err env (now w) = None ->
  subscribe_invoices env (S (now w)) = Ok sub ->
  watchInvoices env w =
  defer clean (watchInvoices_loop env sub)
    (advance w 2 [EvDial None; EvSubscribeInvoices None]).
Proof.
  intros Hd Hs. unfold watchInvoices.
  rewrite (bind_eq _ _ _ _ _ (getClient_ok _ Hd)).
  unfold defer, SubscribeInvoices, mbind, M_bind, bind; cbn. rewrite Hs; cbn.
  unfold advance; cbn. by rewrite <- app_assoc.
Qed.

Lemma watchInvoices_loop_error err sub w :
  watchInvoices_loop env (Err err :: sub) w =
  (Returned tt,
   advance w 0
     (EvRecv (Err err) ::
      (if decide (err = EOF) then [EvCloseSend] else []) ++
      [EvPrintln [error_string err]])).
Proof.
  cbn [watchInvoices_loop]. unfold mbind, M_bind, bind, fmt_Println; cbn.
  destruct (decide (err = EOF)); cbn; unfold advance, emit; cbn;
    by rewrite <- ?app_assoc.
Qed.

End ConsumerFacts.

Section ConsumerClaims.

Variable env : Env.

(** C8. When the subscription signals end-of-stream ([Recv] gives [io.EOF])
    after any number of invoices, [watchInvoices] closes the send side of the
    stream and returns normally: it does not exit, panic or wait, and having
    no result it hands no error to its caller.  The last things it does are
    the receive of [EOF], [CloseSend], the line "EOF" on standard output and
    the deferred close of the connection; [CloseSend] is not called before. *)
Theorem watchInvoices_end_of_stream (invs : list Invoice)
    (rest : list (result Invoice)) (w : World) :
  dial_err env (now w) = None ->
  subscribe_invoices env (S (now w)) = Ok ((Ok <$> invs) ++ Err EOF :: rest) ->
  exists st n evs,
    watchInvoices env w =
      (Returned tt,
       advance_to w st n
         (evs ++ [EvRecv (Err EOF); EvCloseSend; EvPrintln ["EOF"]; EvConnClose])) /\
    EvCloseSend ∉ evs.
Proof.
  intros Hd Hs. rewrite (watchInvoices_subscribed _ _ _ Hd Hs).
  destruct (watchInvoices_loop_invoices env invs
              (advance w 2 [EvDial None; EvSubscribeInvoices None]))
    as (st & n & evs & Hloop & Hev & _).
  exists st, (0 + (0 + (n + 2))),
    ([EvDial None; EvSubscribeInvoices None] ++ evs).
  split.
  - erewrite defer_returned;
      [|rewrite Hloop; apply watchInvoices_loop_error].
    f_equal. rewrite advance_advance, advance_to_advance.
    unfold advance, advance_to; cbn. f_equal. by rewrite <- !app_assoc.
  - intros Hin. apply elem_of_app in Hin as [Hin|Hin].
    + repeat (apply elem_of_cons in Hin as [Hin|Hin]; [discriminate|]).
      by apply elem_of_nil in Hin.
    + rewrite Forall_forall in Hev. by apply Hev in Hin.
Qed.

(** C10. In [watchInvoices] the result of the update is dropped: when the
    update of the record found for a settled invoice fails, the consumer
    writes no line, issues no second update and reports nothing.  The store
    is as it was, and the loop goes on with the next receive. *)
Theorem watchInvoices_update_failure_silent (inv : Invoice)
    (s : DocumentSnapshot) (others : list DocumentSnapshot) (err : error)
    (sub : list (result Invoice)) (w : World) :
  Settled inv = true ->
  getall_err env (now w) = None ->
  matching (PaymentRequest inv) (store w) = s :: others ->
  update_err env (S (now w)) (Ref s) = Some err ->
  watchInvoices_loop env (Ok inv :: sub) w =
  watchInvoices_loop env sub
    (advance w 2
       [EvRecv (Ok inv);
        EvPrintln ["Received "; PaymentRequest inv];
        EvGetAll (Limit 1 (Where "invoice" (VString (PaymentRequest inv)))) (Ok [s]);
        EvUpdate (Ref s) "settled" settled_true (Some err)]).
Proof.
  intros Hs Hq Hm Hu. cbn [watchInvoices_loop].
  rewrite (bind_eq _ _ _ _ _ (emit_eq _ _)).
  erewrite bind_eq; [reflexivity|].
  rewrite on_invoice_query_ok by done.
  cbn [advance store]. rewrite Hm. cbn [take update_all].
  erewrite bind_eq; [|by apply Update_err]. cbv beta.
  unfold mret, M_ret, ret. f_equal.
  unfold advance; cbn. by rewrite <- !app_assoc.
Qed.

(** C3, as the code has it.  For a settled invoice received while the store
    answers the query, the consumer asks for the records whose "invoice"
    equals the payment request with [Limit(1)], and issues the update on
    what comes back: on the first matching record when there is one, on
    nothing when there is none.  It returns to the loop in every case. *)
Theorem on_invoice_updates_first_match (inv : Invoice) (w : World) :
  Settled inv = true ->
  getall_err env (now w) = None ->
  exists st n evs,
    on_invoice env inv w = (Returned tt, advance_to w st n evs) /\
    updates evs = Ref <$> take 1 (matching (PaymentRequest inv) (store w)) /\
    length (updates evs) = min 1 (length (matching (PaymentRequest inv) (store w))).
Proof.
  intros Hs Hq. rewrite on_invoice_query_ok by done.
  edestruct update_all_run as (st & n & evs & -> & Hupd & _ & _).
  rewrite advance_to_advance. eexists st, (n + 1), _.
  split; [reflexivity|].
  assert (updates
            ([EvPrintln ["Received "; PaymentRequest inv];
              EvGetAll (Limit 1 (Where "invoice" (VString (PaymentRequest inv))))
                (Ok (take 1 (matching (PaymentRequest inv) (store w))))] ++ evs)
          = Ref <$> take 1 (matching (PaymentRequest inv) (store w))) as ->
    by (cbn; exact Hupd).
  split; [done|]. by rewrite length_fmap, length_take.
Qed.

End ConsumerClaims.

(** C3, as stated, fails: with two records carrying the payment request of
    a settled invoice, the consumer updates one of them and leaves the other
    unsettled. *)
Lemma on_invoice_leaves_second_match :
  let w' := (on_invoice (calm [] []) (settled_invoice "pr") (start twins)).2 in
  length (matching "pr" twins) = 2 /\
  length (updates (trace w')) = 1 /\
  ~ (forall s, s ∈ matching "pr" twins -> is_settled (store w') (Ref s)).
Proof.
  cbv zeta. split; [by vm_compute|]. split; [by vm_compute|].
  intros H.
  assert ({| Ref := "m2"; Data := message "pr" false |} ∈ matching "pr" twins)
    as Hin by compute_done.
  assert (bool_decide
            (is_settled
               (store (on_invoice (calm [] []) (settled_invoice "pr")
                         (start twins)).2) "m2") = false) as Hno
    by (vm_compute; reflexivity).
  apply bool_decide_eq_false in Hno. apply Hno. exact (H _ Hin).
Qed.

Lemma on_invoice_updates_first_match_witness :
  Settled (settled_invoice "pr") = true /\
  getall_err (calm [] []) (now (start twins)) = None /\
  exists st n evs,
    on_invoice (calm [] []) (settled_invoice "pr") (start twins) =
      (Returned tt, advance_to (start twins) st n evs) /\
    updates evs = Ref <$> take 1 (matching "pr" (store (start twins))) /\
    length (updates evs) = min 1 (length (matching "pr" (store (start twins)))).
Proof.
  split; [reflexivity|]. split; [reflexivity|].
  apply (on_invoice_updates_first_match (calm [] []) (settled_invoice "pr")
           (start twins)); reflexivity.
Defined.

Lemma watchInvoices_end_of_stream_witness :
  dial_err (calm [] [Ok (settled_invoice "pr"); Err EOF]) (now (start twins)) = None /\
  subscribe_invoices (calm [] [Ok (settled_invoice "pr"); Err EOF])
    (S (now (start twins))) = Ok ((Ok <$> [settled_invoice "pr"]) ++ Err EOF :: []) /\
  exists st n evs,
    watchInvoices (calm [] [Ok (settled_invoice "pr"); Err EOF]) (start twins) =
      (Returned tt,
       advance_to (start twins) st n
         (evs ++ [EvRecv (Err EOF); EvCloseSend; EvPrintln ["EOF"]; EvConnClose])) /\
    EvCloseSend ∉ evs.
Proof.
  split; [reflexivity|]. split; [reflexivity|].
  apply (watchInvoices_end_of_stream
           (calm [] [Ok (settled_invoice "pr"); Err EOF])
           [settled_invoice "pr"] [] (start twins)); reflexivity.
Defined.

Lemma watchInvoices_update_failure_silent_witness :
  let env := updates_down [] [] in
  let s := {| Ref := "m1"; Data := message "pr" false |} in
  let others := [{| Ref := "m2"; Data := message "pr" false |}] in
  let err := RpcError "unavailable" in
  Settled (settled_invoice "pr") = true /\
  getall_err env (now (start twins)) = None /\
  matching "pr" (store (start twins)) = s :: others /\
  update_err env (S (now (start twins))) (Ref s) = Some err /\
  watchInvoices_loop env [Ok (settled_invoice "pr"); Err EOF] (start twins) =
  watchInvoices_loop env [Err EOF]
    (advance (start twins) 2
       [EvRecv (Ok (settled_invoice "pr"));
        EvPrintln ["Received "; "pr"];
        EvGetAll (Limit 1 (Where "invoice" (VString "pr"))) (Ok [s]);
        EvUpdate (Ref s) "settled" settled_true (Some err)]).
Proof.
  cbv zeta. split; [reflexivity|]. split; [reflexivity|].
  split; [by vm_compute|]. split; [reflexivity|].
  apply (watchInvoices_update_failure_silent (updates_down [] [])
           (settled_invoice "pr")
           {| Ref := "m1"; Data := message "pr" false |}
           [{| Ref := "m2"; Data := message "pr" false |}]
           (RpcError "unavailable") [Err EOF] (start twins));
    [reflexivity|reflexivity|by vm_compute|reflexivity].
Defined.

(** ** The reconciliation scanner *)

Section Scanner.

Variable env : Env.

Lemma advance_to_advance_to w st st' n m e f :
  advance_to (advance_to w st n e) st' m f = advance_to w st' (m + n) (e ++ f).
Proof.
  unfold advance_to; cbn. f_equal; [lia | by rewrite app_assoc].
Qed.

Lemma advance_advance_to w st n m e f :
  advance (advance_to w st n e) m f = advance_to w st (m + n) (e ++ f).
Proof.
  unfold advance, advance_to; cbn. f_equal; [lia | by rewrite app_assoc].
Qed.

Lemma advance_to_0 w : advance_to w (store w) 0 [] = w.
Proof. unfold advance_to. destruct w; cbn. by rewrite app_nil_r. Qed.

Lemma checkPayment_panics s w :
  invoice_of (Data s) = None ->
  checkPayment env s w =
  (Panicked panic_message, w).
Proof.
  unfold invoice_of, checkPayment. intros H.
  destruct (Data s !! "invoice") as [[]|]; done.
Qed.

Lemma checkPayment_scanned s invoice w :
  invoice_of (Data s) = Some invoice ->
  exists w', checkPayment env s w = (Returned tt, w') /\ scanned env s invoice w w'.
Proof.
  unfold invoice_of, checkPayment. intros H.
  destruct (Data s !! "invoice") as [[inv| | |]|]; try done.
  injection H as ->.
  rewrite (bind_eq _ _ _ _ _ (DecodePayReq_eq _ _ _)).
  destruct (decode_payreq env (now w) invoice) as [decoded|err] eqn:Hdec;
    cbv beta iota.
  - rewrite (bind_eq _ _ _ _ _ (LookupInvoice_eq _ _ _)).
    cbn [advance now Nat.add].
    destruct (lookup_invoice env (S (now w)) (PaymentHash decoded))
      as [lnInvoice|err] eqn:Hlook; cbv beta iota.
    + destruct (Settled lnInvoice) eqn:Hset.
      * destruct (update_err env (S (S (now w))) (Ref s)) as [err|] eqn:Hup;
          [|destruct (store w !! Ref s) as [d|] eqn:Hd].
        -- erewrite bind_eq; [|by apply Update_err].
           eexists. split.
           ++ unfold log_Println. rewrite emit_eq, !advance_advance. reflexivity.
           ++ eapply scanned_update_failed; eauto.
              unfold update_answer. by rewrite Hup.
        -- erewrite bind_eq; [|by eapply Update_ok].
           eexists. split.
           ++ unfold log_Println. rewrite emit_eq. reflexivity.
           ++ pose proof (scanned_updated env s invoice w decoded lnInvoice d
                            Hdec Hlook Hset Hup Hd) as Hsc.
              unfold advance, advance_to in *; cbn in *.
              by rewrite <- !app_assoc.
        -- erewrite bind_eq; [|by apply Update_missing].
           eexists. split.
           ++ unfold log_Println. rewrite emit_eq, !advance_advance. reflexivity.
           ++ eapply (scanned_update_failed _ _ _ _ _ _ (RpcError "NotFound")); eauto.
              unfold update_answer. by rewrite Hup, Hd.
      * eexists. split.
        -- unfold mret, M_ret, ret. rewrite advance_advance. reflexivity.
        -- by eapply scanned_not_settled.
    + eexists. split.
      * unfold fmt_Println. rewrite emit_eq, !advance_advance. reflexivity.
      * by eapply scanned_lookup_failed.
  - eexists. split.
    + unfold fmt_Println. rewrite emit_eq, !advance_advance. reflexivity.
    + by eapply scanned_decode_failed.
Qed.

Lemma checkPayments_loop_app l1 l2 w w1 :
  checkPayments_loop env l1 w = (Returned tt, w1) ->
  checkPayments_loop env (l1 ++ l2) w = checkPayments_loop env l2 w1.
Proof.
  revert w. induction l1 as [|s l1 IH]; intros w H.
  - cbn in H. by injection H as <-.
  - cbn [app checkPayments_loop] in *.
    unfold mbind, M_bind, bind in *.
    destruct (checkPayment env s w) as [[[]| | |] w']; try done.
    by apply IH.
Qed.

Lemma checkPayments_loop_cons s l w w' :
  checkPayment env s w = (Returned tt, w') ->
  checkPayments_loop env (s :: l) w = checkPayments_loop env l w'.
Proof. intros H. cbn [checkPayments_loop]. by rewrite (bind_eq _ _ _ _ _ H). Qed.

Lemma checkPayments_loop_panics s l w :
  invoice_of (Data s) = None ->
  checkPayments_loop env (s :: l) w =
  (Panicked panic_message, w).
Proof.
  intros H. cbn [checkPayments_loop]. unfold mbind, M_bind, bind.
  by rewrite (checkPayment_panics _ _ H).
Qed.

End Scanner.

Section ScannerEffects.

Variable env : Env.

Lemma scan_effect_refl w : scan_effect w w.
Proof.
  exists (store w), 0, []. split; [by rewrite advance_to_0|].
  split; [done|constructor].
Qed.

Lemma scan_effect_trans w1 w2 w3 :
  scan_effect w1 w2 -> scan_effect w2 w3 -> scan_effect w1 w3.
Proof.
  intros (st & n & evs & -> & Hlen & Hev) (st' & n' & evs' & -> & Hlen' & Hev').
  exists st', (n' + n), (evs ++ evs'). split; [by rewrite advance_to_advance_to|].
  split; [|by apply Forall_app].
  unfold updated, updated_lines in *. rewrite !omap_app, !length_app. lia.
Qed.

Lemma scan_effect_advance w n evs :
  length (updated evs) = length (updated_lines evs) ->
  Forall scanner_event evs ->
  scan_effect w (advance w n evs).
Proof. intros H1 H2. by exists (store w), n, evs. Qed.

Lemma scanned_effect s invoice w w' :
  scanned env s invoice w w' -> scan_effect w w'.
Proof.
  intros H. destruct H;
    try (apply scan_effect_advance; [done|repeat constructor]).
  eexists _, _, _. split; [reflexivity|]. split; [done|repeat constructor].
Qed.

Lemma scanned_decoded s invoice w w' :
  scanned env s invoice w w' ->
  exists st n evs,
    w' = advance_to w st n evs /\
    decoded_requests evs = [invoice] /\
    Forall scanner_event evs.
Proof.
  intros H. destruct H; eexists _, _, _;
    (split; [reflexivity|]); (split; [done|repeat constructor]).
Qed.

Lemma scanned_frame s invoice w w' r :
  scanned env s invoice w w' -> r <> Ref s -> store w' !! r = store w !! r.
Proof.
  intros H Hr. destruct H; try done. cbn. by rewrite lookup_insert_ne.
Qed.

Lemma checkPayments_loop_effect l w :
  scan_effect w (checkPayments_loop env l w).2.
Proof.
  revert w. induction l as [|s l IH]; intros w; [apply scan_effect_refl|].
  destruct (invoice_of (Data s)) as [invoice|] eqn:Hinv.
  - destruct (checkPayment_scanned env s invoice w Hinv) as (w' & Hrun & Hsc).
    rewrite (checkPayments_loop_cons _ _ _ _ _ Hrun).
    eapply scan_effect_trans; [by eapply scanned_effect|apply IH].
  - rewrite checkPayments_loop_panics by done. apply scan_effect_refl.
Qed.

Lemma checkPayments_loop_good l w :
  Forall (fun s => is_Some (invoice_of (Data s))) l ->
  exists st n evs,
    checkPayments_loop env l w = (Returned tt, advance_to w st n evs) /\
    decoded_requests evs = invoices l /\
    Forall scanner_event evs.
Proof.
  intros Hl. revert w. induction Hl as [|s l [invoice Hinv] _ IH]; intros w.
  - exists (store w), 0, []. rewrite advance_to_0. by repeat split.
  - destruct (checkPayment_scanned env s invoice w Hinv) as (w' & Hrun & Hsc).
    apply scanned_decoded in Hsc as (st1 & n1 & evs1 & -> & Hdec1 & Hev1).
    destruct (IH (advance_to w st1 n1 evs1)) as (st & n & evs & Hloop & Hdec & Hev).
    exists st, (n + n1), (evs1 ++ evs).
    rewrite (checkPayments_loop_cons _ _ _ _ _ Hrun), Hloop, advance_to_advance_to.
    split; [done|]. split; [|by apply Forall_app].
    unfold decoded_requests, invoices in *. rewrite omap_app, Hdec1, Hdec.
    cbn. by rewrite Hinv.
Qed.

Lemma checkPayments_loop_frame l w r :
  r ∉ (Ref <$> l) -> store (checkPayments_loop env l w).2 !! r = store w !! r.
Proof.
  revert w. induction l as [|s l IH]; intros w Hr; [done|].
  rewrite fmap_cons, not_elem_of_cons in Hr. destruct Hr as [Hr Hl].
  destruct (invoice_of (Data s)) as [invoice|] eqn:Hinv.
  - destruct (checkPayment_scanned env s invoice w Hinv) as (w' & Hrun & Hsc).
    rewrite (checkPayments_loop_cons _ _ _ _ _ Hrun), IH by done.
    by eapply scanned_frame.
  - by rewrite checkPayments_loop_panics.
Qed.

Lemma checkPayments_listed w :
  dial_err env (now w) = None ->
  getall_err env (S (now w)) = None ->
  checkPayments env w =
  defer clean (checkPayments_loop env (unsettled (store w)))
    (advance w 2
       [EvDial None;
        EvGetAll (Where "settled" (VBool false)) (Ok (unsettled (store w)))]).
Proof.
  intros Hd Hq. unfold checkPayments.
  rewrite (bind_eq _ _ _ _ _ (getClient_ok _ _ Hd)).
  unfold defer. erewrite bind_eq; [|by apply GetAll_ok].
  cbv beta iota. rewrite advance_advance. reflexivity.
Qed.

Lemma checkPayments_listing_failed w err :
  dial_err env (now w) = None ->
  getall_err env (S (now w)) = Some err ->
  checkPayments env w =
  (Exited 1,
   advance w 2
     [EvDial None;
      EvGetAll (Where "settled" (VBool false)) (Err err);
      EvLogFatalln ["Failed to get documents "; error_string err]]).
Proof.
  intros Hd Hq. unfold checkPayments.
  rewrite (bind_eq _ _ _ _ _ (getClient_ok _ _ Hd)).
  unfold defer. erewrite bind_eq; [|by apply GetAll_err].
  cbv beta iota. unfold log_Fatalln.
  rewrite (bind_eq _ _ _ _ _ (emit_eq _ _)). unfold os_Exit.
  by rewrite !advance_advance.
Qed.

Lemma checkPayments_dial_failed w err :
  dial_err env (now w) = Some err ->
  checkPayments env w =
  (Exited 1,
   advance w 1 [EvDial (Some err);
                EvStderr (String.append "[chat-backend] " (error_string err))]).
Proof.
  intros Hd. unfold checkPayments, mbind, M_bind, bind.
  by rewrite (getClient_failed _ _ _ Hd).
Qed.

Lemma defer_world {A} (body : M A) w :
  (defer clean body w).1 = (body w).1 /\
  ((defer clean body w).2 = (body w).2 \/
   (defer clean body w).2 = advance (body w).2 0 [EvConnClose]).
Proof.
  unfold defer. destruct (body w) as [[a| | |] w']; cbn; auto.
Qed.

Lemma checkPayments_effect w : scan_effect w (checkPayments env w).2.
Proof.
  destruct (dial_err env (now w)) as [err|] eqn:Hd.
  - rewrite (checkPayments_dial_failed _ _ Hd).
    apply scan_effect_advance; [done|repeat constructor].
  - destruct (getall_err env (S (now w))) as [err|] eqn:Hq.
    + rewrite (checkPayments_listing_failed _ _ Hd Hq).
      apply scan_effect_advance; [done|repeat constructor].
    + rewrite (checkPayments_listed _ Hd Hq).
      match goal with |- scan_effect _ (defer clean ?b ?w0).2 =>
        apply (scan_effect_trans _ w0);
          [apply scan_effect_advance; [done|repeat constructor]|];
        destruct (defer_world b w0) as [_ [-> | ->]];
        pose proof (checkPayments_loop_effect (unsettled (store w)) w0) as Hloop
      end; [done|].
      eapply scan_effect_trans; [exact Hloop|].
      apply scan_effect_advance; [done|repeat constructor].
Qed.

End ScannerEffects.

Section ScannerClaims.

Variable env : Env.

Lemma main_started w :
  newapp_err env = None ->
  firestore_err env = None ->
  main env w =
  (checkPayments env;; watchInvoices env;; serve env)
    (advance w 0 [EvNewApp None; EvFirestore None]).
Proof.
  intros Ha Hf. unfold main.
  rewrite (bind_eq _ _ _ _ _ (emit_eq _ _)), Ha.
  rewrite (bind_eq _ _ _ _ _ (emit_eq _ _)), Hf.
  by rewrite advance_advance.
Qed.

(** C2, as the code has it.  When the listing of the unsettled records
    fails, the scanner run ends there and takes the process with it: the
    failure goes to the log through [log.Fatalln], which exits with status
    1.  No record is read, no ledger call and no store write is made, the
    deferred close does not run, and [main] ends the same way before the
    stream consumer subscribes; nothing is returned to a caller. *)
Theorem listing_failure_is_fatal (w : World) (err : error) :
  newapp_err env = None ->
  firestore_err env = None ->
  dial_err env (now w) = None ->
  getall_err env (S (now w)) = Some err ->
  checkPayments env w =
    (Exited 1,
     advance w 2
       [EvDial None;
        EvGetAll (Where "settled" (VBool false)) (Err err);
        EvLogFatalln ["Failed to get documents "; error_string err]]) /\
  main env w =
    (Exited 1,
     advance w 2
       [EvNewApp None; EvFirestore None;
        EvDial None;
        EvGetAll (Where "settled" (VBool false)) (Err err);
        EvLogFatalln ["Failed to get documents "; error_string err]]).
Proof.
  intros Ha Hf Hd Hq. split; [by apply checkPayments_listing_failed|].
  rewrite main_started by done.
  unfold mbind, M_bind, bind.
  rewrite (checkPayments_listing_failed env _ err) by done.
  by rewrite advance_advance.
Qed.

(** C4, as the code has it.  [checkPayments] has no result: neither a count
    nor an error.  What tells the successful updates of a pass is the log:
    one line "Updated <invoice>" for each update that succeeded, so the
    number of those lines is the number of successful updates, however the
    pass ends. *)
Theorem checkPayments_logs_each_update (st : gmap string (gmap string value))
    (t0 : nat) :
  let w' := (checkPayments env {| store := st; now := t0; trace := [] |}).2 in
  length (updated_lines (trace w')) = length (updated (trace w')).
Proof.
  cbv zeta.
  destruct (checkPayments_effect env {| store := st; now := t0; trace := [] |})
    as (st' & n & evs & -> & Hlen & _).
  by cbn.
Qed.

Lemma checkPayments_loop_scanned_each l w :
  Forall (fun s => is_Some (invoice_of (Data s))) l ->
  exists st n evs,
    checkPayments_loop env l w = (Returned tt, advance_to w st n evs) /\
    decoded_requests evs = invoices l /\
    scanned_each env l w (advance_to w st n evs).
Proof.
  intros Hl. revert w. induction Hl as [|s l [invoice Hinv] _ IH]; intros w.
  - exists (store w), 0, []. rewrite advance_to_0.
    split; [done|]. split; [done|constructor].
  - destruct (checkPayment_scanned env s invoice w Hinv) as (w' & Hrun & Hsc).
    pose proof Hsc as Hsc'.
    apply scanned_decoded in Hsc as (st1 & n1 & evs1 & -> & Hdec1 & _).
    destruct (IH (advance_to w st1 n1 evs1)) as (st & n & evs & Hloop & Hdec & Hall).
    exists st, (n + n1), (evs1 ++ evs).
    rewrite (checkPayments_loop_cons _ _ _ _ _ Hrun), Hloop.
    rewrite advance_to_advance_to in *.
    split; [done|]. split.
    + unfold decoded_requests, invoices in *. rewrite omap_app, Hdec1, Hdec.
      cbn. by rewrite Hinv.
    + by econstructor.
Qed.

(** C6. In a pass, a record whose payment request does not decode, whose
    invoice the ledger does not find, or whose update fails is skipped, and
    only it.  Its turn is, by the kind of failure: the decode and the line
    "Failed to decode payreq"; the decode, the lookup and the line "Failed
    to find invoice"; or the decode, the lookup, the one failed update and
    the line "Update failed".  In each case it returns with the store as it
    was, and the loop goes on with the records after it.  When those carry
    a string in "invoice", every one of them gets its full turn (decode,
    lookup, and the update when the invoice is settled), in order, and the
    pass returns. *)
Theorem checkPayments_loop_skips_failed_record
    (l1 : list DocumentSnapshot) (s : DocumentSnapshot)
    (l2 : list DocumentSnapshot) (invoice : string) (w w1 : World) :
  checkPayments_loop env l1 w = (Returned tt, w1) ->
  invoice_of (Data s) = Some invoice ->
  record_fails env s invoice w1 ->
  exists w2,
    ((exists err,
         decode_payreq env (now w1) invoice = Err err /\
         w2 = advance w1 1
                [EvDecodePayReq invoice (Err err);
                 EvPrintln ["Failed to decode payreq"]])
     \/ (exists decoded err,
           decode_payreq env (now w1) invoice = Ok decoded /\
           lookup_invoice env (S (now w1)) (PaymentHash decoded) = Err err /\
           w2 = advance w1 2
                  [EvDecodePayReq invoice (Ok decoded);
                   EvLookupInvoice (PaymentHash decoded) (Err err);
                   EvPrintln ["Failed to find invoice "; error_string err]])
     \/ (exists decoded lnInvoice err,
           decode_payreq env (now w1) invoice = Ok decoded /\
           lookup_invoice env (S (now w1)) (PaymentHash decoded) = Ok lnInvoice /\
           Settled lnInvoice = true /\
           update_answer env (S (S (now w1))) (store w1) (Ref s) = Some err /\
           w2 = advance w1 3
                  [EvDecodePayReq invoice (Ok decoded);
                   EvLookupInvoice (PaymentHash decoded) (Ok lnInvoice);
                   EvUpdate (Ref s) "settled" settled_true (Some err);
                   EvLogPrintln ["Update failed "; error_string err]])) /\
    checkPayment env s w1 = (Returned tt, w2) /\
    store w2 = store w1 /\
    checkPayments_loop env (l1 ++ s :: l2) w = checkPayments_loop env l2 w2 /\
    (Forall (fun s' => is_Some (invoice_of (Data s'))) l2 ->
     exists st' n' evs',
       checkPayments_loop env (l1 ++ s :: l2) w =
         (Returned tt, advance_to w2 st' n' evs') /\
       decoded_requests evs' = invoices l2 /\
       scanned_each env l2 w2 (advance_to w2 st' n' evs')).
Proof.
  intros Hl1 Hinv Hfail.
  destruct (checkPayment_scanned env s invoice w1 Hinv) as (w2 & Hrun & Hsc).
  exists w2.
  assert (checkPayments_loop env (l1 ++ s :: l2) w =
          checkPayments_loop env l2 w2) as Hgo.
  { rewrite (checkPayments_loop_app _ _ _ _ _ Hl1).
    by apply checkPayments_loop_cons. }
  split; [|split; [done|split; [|split; [done|]]]].
  - destruct Hsc as [err Hd|dec err Hd Hl|dec inv Hd Hl Hs
                    |dec inv err Hd Hl Hs Hu|dec inv d Hd Hl Hs Hu Hst].
    + left. by exists err.
    + right. left. by exists dec, err.
    + exfalso.
      destruct Hfail as [(e & H1)|[(dc & e & H1 & H2)
                                  |(dc & i & e & H1 & H2 & H3 & H4)]];
        congruence.
    + right. right. by exists dec, inv, err.
    + exfalso.
      destruct Hfail as [(e & H1)|[(dc & e & H1 & H2)
                                  |(dc & i & e & H1 & H2 & H3 & H4)]];
        try congruence.
      unfold update_answer in H4. by rewrite Hu, Hst in H4.
  - destruct Hsc as [err Hd|dec err Hd Hl|dec inv Hd Hl Hs
                    |dec inv err Hd Hl Hs Hu|dec inv d Hd Hl Hs Hu Hst];
      try done.
    exfalso.
    destruct Hfail as [(e & H1)|[(dc & e & H1 & H2)
                                |(dc & i & e & H1 & H2 & H3 & H4)]];
      try congruence.
    unfold update_answer in H4. by rewrite Hu, Hst in H4.
  - intros Hl2.
    destruct (checkPayments_loop_scanned_each l2 w2 Hl2)
      as (st' & n' & evs' & Hloop & Hdec & Hall).
    exists st', n', evs'. by rewrite Hgo.
Qed.

(** C7. A record whose invoice the ledger does not find gets no store
    write: its turn is the decode, the failed lookup and a line, the store is
    as before, and the loop goes on with the records after it.  When no
    other record of the pass has its reference, the document is the same at
    the end of the pass as at its start. *)
Theorem checkPayments_loop_not_found_unchanged
    (l1 : list DocumentSnapshot) (s : DocumentSnapshot)
    (l2 : list DocumentSnapshot) (invoice : string) (decoded : PayReq)
    (err : error) (w w1 : World) :
  checkPayments_loop env l1 w = (Returned tt, w1) ->
  invoice_of (Data s) = Some invoice ->
  decode_payreq env (now w1) invoice = Ok decoded ->
  lookup_invoice env (S (now w1)) (PaymentHash decoded) = Err err ->
  checkPayments_loop env (l1 ++ s :: l2) w =
    checkPayments_loop env l2
      (advance w1 2
         [EvDecodePayReq invoice (Ok decoded);
          EvLookupInvoice (PaymentHash decoded) (Err err);
          EvPrintln ["Failed to find invoice "; error_string err]]) /\
  (Ref s ∉ (Ref <$> l1 ++ l2) ->
   store (checkPayments_loop env (l1 ++ s :: l2) w).2 !! Ref s = store w !! Ref s).
Proof.
  intros Hl1 Hinv Hdec Hlook.
  destruct (checkPayment_scanned env s invoice w1 Hinv) as (w2 & Hrun & Hsc).
  assert (w2 = advance w1 2
                 [EvDecodePayReq invoice (Ok decoded);
                  EvLookupInvoice (PaymentHash decoded) (Err err);
                  EvPrintln ["Failed to find invoice "; error_string err]]) as ->.
  { destruct Hsc; congruence. }
  assert (checkPayments_loop env (l1 ++ s :: l2) w =
          checkPayments_loop env l2
            (advance w1 2
               [EvDecodePayReq invoice (Ok decoded);
                EvLookupInvoice (PaymentHash decoded) (Err err);
                EvPrintln ["Failed to find invoice "; error_string err]])) as Hgo.
  { rewrite (checkPayments_loop_app _ _ _ _ _ Hl1).
    by apply checkPayments_loop_cons. }
  split; [done|].
  intros Hfresh. rewrite fmap_app, not_elem_of_app in Hfresh.
  destruct Hfresh as [Hf1 Hf2].
  rewrite Hgo, checkPayments_loop_frame by done. cbn.
  pose proof (checkPayments_loop_frame env l1 w (Ref s) Hf1) as H1.
  by rewrite Hl1 in H1.
Qed.

End ScannerClaims.

Section ProcessClaims.

Variable env : Env.

Lemma scanner_event_quiet evs :
  Forall scanner_event evs ->
  Forall (fun e => is_subscribe e = false /\ is_serve e = false) evs.
Proof. intros H. eapply Forall_impl; [exact H|]. by intros []. Qed.

Lemma consumer_event_quiet evs :
  Forall consumer_event evs -> Forall (fun e => is_serve e = false) evs.
Proof. intros H. eapply Forall_impl; [exact H|]. by intros []. Qed.

Lemma checkPayments_bad_invoice w l1 s l2 :
  dial_err env (now w) = None ->
  getall_err env (S (now w)) = None ->
  unsettled (store w) = l1 ++ s :: l2 ->
  Forall (fun s' => is_Some (invoice_of (Data s'))) l1 ->
  invoice_of (Data s) = None ->
  exists st n evs,
    checkPayments env w =
      (Panicked panic_message, advance_to w st n (evs ++ [EvConnClose])) /\
    decoded_requests evs = invoices l1 /\
    Forall scanner_event evs.
Proof.
  intros Hd Hq Hsnap Hl1 Hbad.
  rewrite (checkPayments_listed env _ Hd Hq), Hsnap.
  match goal with |- context [defer clean _ ?w0] =>
    destruct (checkPayments_loop_good env l1 w0 Hl1)
      as (st & n & evs & Hloop & Hdec & Hev)
  end.
  exists st, (0 + (n + 2)),
    ([EvDial None;
      EvGetAll (Where "settled" (VBool false)) (Ok (l1 ++ s :: l2))] ++ evs).
  split; [|split].
  - erewrite defer_panicked;
      [|rewrite (checkPayments_loop_app _ _ _ _ _ Hloop);
        apply checkPayments_loop_panics; exact Hbad].
    f_equal. unfold advance, advance_to; cbn. f_equal; [lia|].
    rewrite <- ?app_assoc. reflexivity.
  - exact Hdec.
  - apply Forall_app. split; [repeat constructor|done].
Qed.

(** C9. The loop of [checkPayments] asserts, unchecked, that the field
    "invoice" of every listed record is a string.  At the first record
    where the field is missing or is something else the assertion panics:
    the records before it have been sent to the ledger, that record and
    those after it are not, the deferred close runs and the panic leaves
    [checkPayments]; [main] ends by the same panic, before the stream
    consumer subscribes and before the front end listens. *)
Theorem checkPayments_panics_on_bad_invoice (w : World)
    (l1 : list DocumentSnapshot) (s : DocumentSnapshot)
    (l2 : list DocumentSnapshot) :
  dial_err env (now w) = None ->
  getall_err env (S (now w)) = None ->
  unsettled (store w) = l1 ++ s :: l2 ->
  Forall (fun s' => is_Some (invoice_of (Data s'))) l1 ->
  invoice_of (Data s) = None ->
  (exists st n evs,
      checkPayments env w =
        (Panicked panic_message, advance_to w st n (evs ++ [EvConnClose])) /\
      decoded_requests evs = invoices l1) /\
  (newapp_err env = None ->
   firestore_err env = None ->
   exists st n evs,
     main env w = (Panicked panic_message, advance_to w st n evs) /\
     Forall (fun e => is_subscribe e = false /\ is_serve e = false) evs).
Proof.
  intros Hd Hq Hsnap Hl1 Hbad. split.
  - destruct (checkPayments_bad_invoice w l1 s l2) as (st & n & evs & H & Hdec & _);
      try done.
    by exists st, n, evs.
  - intros Ha Hf. rewrite main_started by done.
    destruct (checkPayments_bad_invoice
                (advance w 0 [EvNewApp None; EvFirestore None]) l1 s l2)
      as (st & n & evs & H & _ & Hev); try done.
    exists st, (n + 0), ([EvNewApp None; EvFirestore None] ++ evs ++ [EvConnClose]).
    split.
    + unfold mbind, M_bind, bind. rewrite H.
      by rewrite advance_to_advance.
    + apply Forall_app. split; [by repeat constructor|].
      apply Forall_app. split; [by apply scanner_event_quiet|by repeat constructor].
Qed.

(** C5: what the code does instead.  [main] calls [watchInvoices] in line,
    not as a background task, and builds the REST front end only after it
    returns.  So while the subscription is open and delivering invoices
    (the consumer has received all of [invs] and waits for the next),
    [main] has not reached [ListenAndServe]: the front end serves nothing. *)
Theorem main_front_end_waits_for_consumer (invs : list Invoice) (w : World) :
  let w0 := advance w 0 [EvNewApp None; EvFirestore None] in
  let w1 := (checkPayments env w0).2 in
  newapp_err env = None ->
  firestore_err env = None ->
  (checkPayments env w0).1 = Returned tt ->
  dial_err env (now w1) = None ->
  subscribe_invoices env (S (now w1)) = Ok (Ok <$> invs) ->
  exists st n evs,
    main env w = (Blocked, advance_to w st n evs) /\
    Forall (fun e => is_serve e = false) evs /\
    (forall inv, inv ∈ invs -> EvRecv (Ok inv) ∈ evs).
Proof.
  intros w0 w1 Ha Hf Hret Hd Hs.
  rewrite main_started by done. fold w0.
  destruct (checkPayments_effect env w0) as (st1 & n1 & evs1 & Hw1 & _ & Hev1).
  fold w1 in Hw1.
  assert (checkPayments env w0 = (Returned tt, w1)) as Hrun.
  { subst w1. destruct (checkPayments env w0); cbn in *. by subst. }
  rewrite (bind_eq _ _ _ _ _ Hrun).
  destruct (watchInvoices_loop_invoices env invs
              (advance w1 2 [EvDial None; EvSubscribeInvoices None]))
    as (st & n & evs & Hloop & Hev & Hrecv).
  assert (watchInvoices env w1 =
          (Blocked,
           advance_to (advance w1 2 [EvDial None; EvSubscribeInvoices None])
             st n evs)) as Hwatch.
  { rewrite (watchInvoices_subscribed env _ _ Hd Hs).
    apply defer_blocked.
    specialize (Hloop []). rewrite app_nil_r in Hloop. by rewrite Hloop. }
  unfold mbind, M_bind, bind. rewrite Hwatch, Hw1.
  exists st, (n + 2 + n1 + 0),
    ([EvNewApp None; EvFirestore None] ++ evs1 ++
     [EvDial None; EvSubscribeInvoices None] ++ evs).
  split; [|split].
  - f_equal. subst w0. unfold advance, advance_to; cbn. f_equal; [lia|].
    by rewrite <- !app_assoc.
  - apply Forall_app. split; [by repeat constructor|].
    apply Forall_app. split.
    + eapply Forall_impl; [by apply scanner_event_quiet|]. by intros ? [_ ?].
    + apply Forall_app. split; [by repeat constructor|].
      by apply consumer_event_quiet.
  - intros inv Hin. rewrite !elem_of_app. do 3 right. by apply Hrecv.
Qed.

End ProcessClaims.

(** ** The claims on concrete runs *)

(** C2, as stated, fails: with a store that does not answer the listing,
    [checkPayments] does not return to [main]; the process exits with status
    1 and the stream consumer never subscribes. *)
Lemma listing_failure_ends_process :
  (main queries_down (start twins)).1 = Exited 1 /\
  forallb (fun e => negb (is_subscribe e))
    (trace (main queries_down (start twins)).2) = true /\
  ~ (exists w', checkPayments queries_down (start twins) = (Returned tt, w')).
Proof.
  split; [by vm_compute|]. split; [by vm_compute|].
  intros [w' H].
  assert ((checkPayments queries_down (start twins)).1 = Exited 1) as Hex
    by (by vm_compute).
  rewrite H in Hex. discriminate.
Qed.

Lemma listing_failure_is_fatal_witness :
  newapp_err queries_down = None /\
  firestore_err queries_down = None /\
  dial_err queries_down (now (start twins)) = None /\
  getall_err queries_down (S (now (start twins))) = Some (RpcError "unavailable") /\
  checkPayments queries_down (start twins) =
    (Exited 1,
     advance (start twins) 2
       [EvDial None;
        EvGetAll (Where "settled" (VBool false)) (Err (RpcError "unavailable"));
        EvLogFatalln ["Failed to get documents "; "unavailable"]]) /\
  main queries_down (start twins) =
    (Exited 1,
     advance (start twins) 2
       [EvNewApp None; EvFirestore None;
        EvDial None;
        EvGetAll (Where "settled" (VBool false)) (Err (RpcError "unavailable"));
        EvLogFatalln ["Failed to get documents "; "unavailable"]]).
Proof.
  do 4 (split; [reflexivity|]).
  apply (listing_failure_is_fatal queries_down (start twins)
           (RpcError "unavailable")); reflexivity.
Defined.

(** C4, as stated, fails: [checkPayments] returns nothing from which a count
    could be read.  A pass that updates one record and a pass that updates
    none return the same, so no function of the result is the number of
    successful updates. *)
Lemma checkPayments_result_has_no_count :
  ~ (exists count : outcome unit -> nat,
        count (checkPayments (calm ["hash:pr1"] []) (start paid_message)).1 =
          length (updated
                    (trace (checkPayments (calm ["hash:pr1"] [])
                              (start paid_message)).2)) /\
        count (checkPayments (calm [] []) (start paid_message)).1 =
          length (updated
                    (trace (checkPayments (calm [] []) (start paid_message)).2))).
Proof.
  intros (count & H1 & H2).
  assert ((checkPayments (calm ["hash:pr1"] []) (start paid_message)).1 =
          Returned tt) as E1 by (by vm_compute).
  assert ((checkPayments (calm [] []) (start paid_message)).1 =
          Returned tt) as E2 by (by vm_compute).
  assert (length (updated
                    (trace (checkPayments (calm ["hash:pr1"] [])
                              (start paid_message)).2)) = 1) as L1
    by (by vm_compute).
  assert (length (updated
                    (trace (checkPayments (calm [] []) (start paid_message)).2))
          = 0) as L2 by (by vm_compute).
  rewrite E1, L1 in H1. rewrite E2, L2 in H2. congruence.
Qed.

(** The end-to-end scenario of a pass: one unsettled record whose invoice
    the ledger holds as settled.  After the pass the record is settled and
    one line "Updated pr1" is in the log. *)
Example checkPayments_end_to_end :
  let r := checkPayments (calm ["hash:pr1"] []) (start paid_message) in
  r.1 = Returned tt /\
  bool_decide (is_settled (store r.2) "m1") = true /\
  updated_lines (trace r.2) = ["pr1"] /\
  updated (trace r.2) = ["m1"].
Proof. cbv zeta. repeat split; by vm_compute. Qed.

Lemma main_front_end_waits_for_consumer_witness :
  let env := calm [] [Ok (settled_invoice "pr")] in
  let w0 := advance (start twins) 0 [EvNewApp None; EvFirestore None] in
  let w1 := (checkPayments env w0).2 in
  newapp_err env = None /\
  firestore_err env = None /\
  (checkPayments env w0).1 = Returned tt /\
  dial_err env (now w1) = None /\
  subscribe_invoices env (S (now w1)) = Ok (Ok <$> [settled_invoice "pr"]) /\
  exists st n evs,
    main env (start twins) = (Blocked, advance_to (start twins) st n evs) /\
    Forall (fun e => is_serve e = false) evs /\
    (forall inv, inv ∈ [settled_invoice "pr"] -> EvRecv (Ok inv) ∈ evs).
Proof.
  cbv zeta. do 2 (split; [reflexivity|]). split; [by vm_compute|].
  do 2 (split; [reflexivity|]).
  apply (main_front_end_waits_for_consumer
           (calm [] [Ok (settled_invoice "pr")]) [settled_invoice "pr"]
           (start twins));
    [reflexivity|reflexivity|by vm_compute|reflexivity|reflexivity].
Defined.

Lemma checkPayments_loop_skips_failed_record_witness :
  let env := ledger_empty in
  let s := {| Ref := "m1"; Data := message "pr" false |} in
  let l2 := [{| Ref := "m2"; Data := message "pr" false |}] in
  let invoice := "pr" in
  let w := start twins in
  let w1 := start twins in
  checkPayments_loop env [] w = (Returned tt, w1) /\
  invoice_of (Data s) = Some invoice /\
  record_fails env s invoice w1 /\
  exists w2,
    ((exists err,
         decode_payreq env (now w1) invoice = Err err /\
         w2 = advance w1 1
                [EvDecodePayReq invoice (Err err);
                 EvPrintln ["Failed to decode payreq"]])
     \/ (exists decoded err,
           decode_payreq env (now w1) invoice = Ok decoded /\
           lookup_invoice env (S (now w1)) (PaymentHash decoded) = Err err /\
           w2 = advance w1 2
                  [EvDecodePayReq invoice (Ok decoded);
                   EvLookupInvoice (PaymentHash decoded) (Err err);
                   EvPrintln ["Failed to find invoice "; error_string err]])
     \/ (exists decoded lnInvoice err,
           decode_payreq env (now w1) invoice = Ok decoded /\
           lookup_invoice env (S (now w1)) (PaymentHash decoded) = Ok lnInvoice /\
           Settled lnInvoice = true /\
           update_answer env (S (S (now w1))) (store w1) (Ref s) = Some err /\
           w2 = advance w1 3
                  [EvDecodePayReq invoice (Ok decoded);
                   EvLookupInvoice (PaymentHash decoded) (Ok lnInvoice);
                   EvUpdate (Ref s) "settled" settled_true (Some err);
                   EvLogPrintln ["Update failed "; error_string err]])) /\
    checkPayment env s w1 = (Returned tt, w2) /\
    store w2 = store w1 /\
    checkPayments_loop env ([] ++ s :: l2) w = checkPayments_loop env l2 w2 /\
    (Forall (fun s' => is_Some (invoice_of (Data s'))) l2 ->
     exists st' n' evs',
       checkPayments_loop env ([] ++ s :: l2) w =
         (Returned tt, advance_to w2 st' n' evs') /\
       decoded_requests evs' = invoices l2 /\
       scanned_each env l2 w2 (advance_to w2 st' n' evs')).
Proof.
  cbv zeta.
  assert (record_fails ledger_empty
            {| Ref := "m1"; Data := message "pr" false |} "pr" (start twins))
    as Hfail.
  { right. left. by exists {| PaymentHash := "hash:pr" |},
                         (RpcError "unable to locate invoice"). }
  split; [reflexivity|]. split; [vm_compute; reflexivity|]. split; [exact Hfail|].
  apply (checkPayments_loop_skips_failed_record ledger_empty []
           {| Ref := "m1"; Data := message "pr" false |}
           [{| Ref := "m2"; Data := message "pr" false |}] "pr"
           (start twins) (start twins));
    [reflexivity|vm_compute; reflexivity|exact Hfail].
Defined.

Lemma checkPayments_loop_not_found_unchanged_witness :
  let s := {| Ref := "m1"; Data := message "pr" false |} in
  let l2 := [{| Ref := "m2"; Data := message "pr" false |}] in
  let decoded := {| PaymentHash := "hash:pr" |} in
  let err := RpcError "unable to locate invoice" in
  let w := start twins in
  checkPayments_loop ledger_empty [] w = (Returned tt, w) /\
  invoice_of (Data s) = Some "pr" /\
  decode_payreq ledger_empty (now w) "pr" = Ok decoded /\
  lookup_invoice ledger_empty (S (now w)) (PaymentHash decoded) = Err err /\
  checkPayments_loop ledger_empty ([] ++ s :: l2) w =
    checkPayments_loop ledger_empty l2
      (advance w 2
         [EvDecodePayReq "pr" (Ok decoded);
          EvLookupInvoice (PaymentHash decoded) (Err err);
          EvPrintln ["Failed to find invoice "; error_string err]]) /\
  (Ref s ∉ (Ref <$> [] ++ l2) ->
   store (checkPayments_loop ledger_empty ([] ++ s :: l2) w).2 !! Ref s =
   store w !! Ref s).
Proof.
  cbv zeta. split; [reflexivity|]. split; [by vm_compute|].
  do 2 (split; [reflexivity|]).
  apply (checkPayments_loop_not_found_unchanged ledger_empty []
           {| Ref := "m1"; Data := message "pr" false |}
           [{| Ref := "m2"; Data := message "pr" false |}] "pr"
           {| PaymentHash := "hash:pr" |}
           (RpcError "unable to locate invoice") (start twins) (start twins));
    [reflexivity|by vm_compute|reflexivity|reflexivity].
Defined.

Lemma checkPayments_panics_on_bad_invoice_witness :
  let env := calm [] [] in
  let w := start with_stray in
  let l1 := [{| Ref := "m1"; Data := message "pr1" false |}] in
  let s := {| Ref := "m2"; Data := <["settled" := VBool false]> ∅ |} in
  dial_err env (now w) = None /\
  getall_err env (S (now w)) = None /\
  unsettled (store w) = l1 ++ s :: [] /\
  Forall (fun s' => is_Some (invoice_of (Data s'))) l1 /\
  invoice_of (Data s) = None /\
  (exists st n evs,
      checkPayments env w =
        (Panicked panic_message, advance_to w st n (evs ++ [EvConnClose])) /\
      decoded_requests evs = invoices l1) /\
  (newapp_err env = None ->
   firestore_err env = None ->
   exists st n evs,
     main env w = (Panicked panic_message, advance_to w st n evs) /\
     Forall (fun e => is_subscribe e = false /\ is_serve e = false) evs).
Proof.
  cbv zeta.
  assert (Forall (fun s' => is_Some (invoice_of (Data s')))
            [{| Ref := "m1"; Data := message "pr1" false |}]) as Hl1.
  { constructor; [|constructor]. exists "pr1". by vm_compute. }
  do 2 (split; [reflexivity|]). split; [by vm_compute|].
  split; [exact Hl1|]. split; [by vm_compute|].
  apply (checkPayments_panics_on_bad_invoice (calm [] []) (start with_stray)
           [{| Ref := "m1"; Data := message "pr1" false |}]
           {| Ref := "m2"; Data := <["settled" := VBool false]> ∅ |} []);
    [reflexivity|reflexivity|by vm_compute|exact Hl1|by vm_compute].
Defined.

(** ** The settlement invariant *)

Section Invariant.

Variable env : Env.
Variable st0 : gmap string (gmap string value).

Lemma invoice_of_mark d : invoice_of (mark_settled d) = invoice_of d.
Proof. unfold invoice_of, mark_settled. by rewrite lookup_insert_ne. Qed.

Lemma mark_settled_idemp d : mark_settled (mark_settled d) = mark_settled d.
Proof. unfold mark_settled. apply insert_insert_eq. Qed.

Lemma ledger_settled_app tr evs pr :
  ledger_settled tr pr -> ledger_settled (tr ++ evs) pr.
Proof.
  intros [(dec & inv & H1 & H2 & H3)|(inv & H1 & H2 & H3)]; [left|right].
  - exists dec, inv. rewrite !elem_of_app. auto.
  - exists inv. rewrite elem_of_app. auto.
Qed.

Lemma query_sound q (st : gmap string (gmap string value)) s :
  s ∈ run_query q st ->
  st !! Ref s = Some (Data s) /\ Data s !! q_path q = Some (q_value q).
Proof.
  unfold run_query. intros H.
  assert (s ∈ filter (field_is (q_path q) (q_value q))
                (snapshot_of <$> map_to_list st)) as Hin.
  { destruct (q_limit q); cbn in H; [by eapply subseteq_take|done]. }
  apply list_elem_of_filter in Hin as [Hf Hin].
  apply list_elem_of_fmap in Hin as ([r d] & -> & Hin).
  apply elem_of_map_to_list in Hin. by split.
Qed.

Lemma inv_advance w n evs :
  settlement_inv st0 w -> Forall write_ok evs ->
  settlement_inv st0 (advance w n evs).
Proof.
  intros [Hw Hst] Hev. split; cbn; [by apply Forall_app|].
  intros ref. destruct (Hst ref) as [H|(d0 & pr & H1 & H2 & H3 & H4)]; [by left|].
  right. exists d0, pr. repeat split; try done. by apply ledger_settled_app.
Qed.

Lemma inv_update w r d n evs :
  settlement_inv st0 w -> Forall write_ok evs ->
  store w !! r = Some d ->
  (forall d0, st0 !! r = Some d0 ->
     exists pr, invoice_of d0 = Some pr /\ ledger_settled (trace w ++ evs) pr) ->
  settlement_inv st0 (advance_to w (<[r := mark_settled d]> (store w)) n evs).
Proof.
  intros [Hw Hst] Hev Hd Hjust. split; cbn; [by apply Forall_app|].
  intros ref. destruct (decide (ref = r)) as [->|Hne].
  - rewrite lookup_insert_eq. right.
    destruct (Hst r) as [H|(d0 & pr & H1 & H2 & H3 & H4)].
    + rewrite Hd in H. symmetry in H.
      destruct (Hjust d H) as (pr & Hp & Hl). by exists d, pr.
    + rewrite Hd in H2. injection H2 as ->.
      destruct (Hjust d0 H1) as (pr' & Hp & Hl). exists d0, pr'.
      by rewrite mark_settled_idemp.
  - rewrite lookup_insert_ne by done.
    destruct (Hst ref) as [H|(d0 & pr & H1 & H2 & H3 & H4)]; [by left|].
    right. exists d0, pr. repeat split; try done. by apply ledger_settled_app.
Qed.

Lemma inv_same_invoice w s :
  settlement_inv st0 w -> store w !! Ref s = Some (Data s) -> same_invoice st0 s.
Proof.
  intros [_ Hst] Hs d0 Hd0.
  destruct (Hst (Ref s)) as [H|(d & pr & H1 & H2 & _)].
  - rewrite Hs, Hd0 in H. by injection H as ->.
  - rewrite Hd0 in H1. injection H1 as ->.
    rewrite Hs in H2. injection H2 as ->. by rewrite invoice_of_mark.
Qed.

Lemma inv_scanned s invoice w w' :
  settlement_inv st0 w -> same_invoice st0 s ->
  invoice_of (Data s) = Some invoice ->
  scanned env s invoice w w' ->
  settlement_inv st0 w'.
Proof.
  intros Hinv Hsame Hi Hsc.
  destruct Hsc as [err Hd|dec err Hd Hl|dec inv Hd Hl Hs
                  |dec inv err Hd Hl Hs Hu|dec inv d Hd Hl Hs Hu Hst];
    try (apply inv_advance; [done|by repeat constructor]).
  apply inv_update; [done|by repeat constructor|done|].
  intros d0 Hd0. exists invoice. split; [by rewrite (Hsame d0 Hd0)|].
  left. exists dec, inv. split; [|split; [|done]].
  - apply elem_of_app. right. apply list_elem_of_here.
  - apply elem_of_app. right. apply list_elem_of_further, list_elem_of_here.
Qed.

Lemma inv_loop l w :
  Forall (same_invoice st0) l -> settlement_inv st0 w ->
  settlement_inv st0 (checkPayments_loop env l w).2.
Proof.
  intros Hl. revert w. induction Hl as [|s l Hs _ IH]; intros w Hinv; [done|].
  destruct (invoice_of (Data s)) as [invoice|] eqn:Hi.
  - destruct (checkPayment_scanned env s invoice w Hi) as (w' & Hrun & Hsc).
    rewrite (checkPayments_loop_cons _ _ _ _ _ Hrun). apply IH.
    by eapply inv_scanned.
  - by rewrite checkPayments_loop_panics.
Qed.

Lemma inv_defer {A} (body : M A) w :
  settlement_inv st0 (body w).2 -> settlement_inv st0 (defer clean body w).2.
Proof.
  intros H. destruct (defer_world body w) as [_ [-> | ->]]; [done|].
  apply inv_advance; [done|by repeat constructor].
Qed.

Lemma inv_checkPayments w :
  settlement_inv st0 w -> settlement_inv st0 (checkPayments env w).2.
Proof.
  intros Hinv. destruct (dial_err env (now w)) as [err|] eqn:Hd.
  - rewrite (checkPayments_dial_failed _ _ _ Hd).
    apply inv_advance; [done|by repeat constructor].
  - destruct (getall_err env (S (now w))) as [err|] eqn:Hq.
    + rewrite (checkPayments_listing_failed _ _ _ Hd Hq).
      apply inv_advance; [done|by repeat constructor].
    + rewrite (checkPayments_listed _ _ Hd Hq).
      apply inv_defer, inv_loop.
      * apply Forall_forall. intros s Hs.
        apply query_sound in Hs as [Hs _]. by eapply inv_same_invoice.
      * apply inv_advance; [done|by repeat constructor].
Qed.

Lemma inv_update_all l w :
  settlement_inv st0 w ->
  (forall s, s ∈ l -> forall d0, st0 !! Ref s = Some d0 ->
     exists pr, invoice_of d0 = Some pr /\ ledger_settled (trace w) pr) ->
  settlement_inv st0 (update_all env l w).2.
Proof.
  revert w. induction l as [|s l IH]; intros w Hinv Hjust; [done|].
  destruct (Update_cases env (Ref s) "settled" settled_true w)
    as (res & st & Hup & Hst).
  cbn [update_all]. rewrite (bind_eq _ _ _ _ _ Hup). apply IH.
  - destruct Hst as [(-> & d & Hd & ->)|(_ & ->)].
    + apply inv_update; [done|by repeat constructor|done|].
      intros d0 Hd0.
      destruct (Hjust s (list_elem_of_here _ _) d0 Hd0) as (pr & Hp & Hl).
      exists pr. split; [done|by apply ledger_settled_app].
    + apply inv_advance; [done|by repeat constructor].
  - intros s' Hs' d0 Hd0.
    destruct (Hjust s' (list_elem_of_further _ _ _ Hs') d0 Hd0) as (pr & Hp & Hl).
    exists pr. split; [done|]. by apply ledger_settled_app.
Qed.

Lemma inv_on_invoice inv w :
  settlement_inv st0 w -> EvRecv (Ok inv) ∈ trace w ->
  settlement_inv st0 (on_invoice env inv w).2.
Proof.
  intros Hinv Hrecv. destruct (Settled inv) eqn:Hs.
  - destruct (getall_err env (now w)) as [err|] eqn:Hq.
    + rewrite (on_invoice_query_failed _ _ _ _ Hs Hq).
      apply inv_advance; [done|by repeat constructor].
    + rewrite (on_invoice_query_ok _ _ _ Hs Hq).
      apply inv_update_all; [apply inv_advance; [done|by repeat constructor]|].
      intros s Hin d0 Hd0.
      change (take 1 (matching (PaymentRequest inv) (store w)))
        with (run_query (Limit 1 (Where "invoice" (VString (PaymentRequest inv))))
                (store w)) in Hin.
      apply query_sound in Hin as [Hst Hfield]. cbn in Hfield.
      exists (PaymentRequest inv). split.
      * rewrite (inv_same_invoice w s Hinv Hst d0 Hd0).
        unfold invoice_of. by rewrite Hfield.
      * right. exists inv. cbn. rewrite elem_of_app. auto.
  - by rewrite on_invoice_unsettled.
Qed.

Lemma inv_watchInvoices_loop sub w :
  settlement_inv st0 w -> settlement_inv st0 (watchInvoices_loop env sub w).2.
Proof.
  revert w. induction sub as [|[inv|err] sub IH]; intros w Hinv; [done| |].
  - destruct (on_invoice_run env inv (advance w 0 [EvRecv (Ok inv)]))
      as (st & n & evs & Hrun & _).
    cbn [watchInvoices_loop].
    rewrite (bind_eq _ _ _ _ _ (emit_eq _ _)), (bind_eq _ _ _ _ _ Hrun).
    apply IH.
    replace (advance_to (advance w 0 [EvRecv (Ok inv)]) st n evs)
      with (on_invoice env inv (advance w 0 [EvRecv (Ok inv)])).2
      by (by rewrite Hrun).
    apply inv_on_invoice.
    + apply inv_advance; [done|by repeat constructor].
    + cbn. rewrite elem_of_app, elem_of_cons. auto.
  - rewrite watchInvoices_loop_error.
    apply inv_advance; [done|]. destruct (decide (err = EOF)); by repeat constructor.
Qed.

Lemma watchInvoices_dial_failed w err :
  dial_err env (now w) = Some err ->
  watchInvoices env w =
  (Exited 1,
   advance w 1 [EvDial (Some err);
                EvStderr (String.append "[chat-backend] " (error_string err))]).
Proof.
  intros Hd. unfold watchInvoices, mbind, M_bind, bind.
  by rewrite (getClient_failed _ _ _ Hd).
Qed.

Lemma watchInvoices_subscribe_failed w err :
  dial_err env (now w) = None ->
  subscribe_invoices env (S (now w)) = Err err ->
  watchInvoices env w =
  (Returned tt,
   advance w 2
     [EvDial None; EvSubscribeInvoices (Some err);
      EvPrintln [error_string err]; EvConnClose]).
Proof.
  intros Hd Hs. unfold watchInvoices.
  rewrite (bind_eq _ _ _ _ _ (getClient_ok _ _ Hd)).
  unfold defer, SubscribeInvoices, fmt_Println, clean, emit, mbind, M_bind, bind;
    cbn. rewrite Hs; cbn.
  unfold advance; cbn. by rewrite <- !app_assoc.
Qed.

Lemma inv_watchInvoices w :
  settlement_inv st0 w -> settlement_inv st0 (watchInvoices env w).2.
Proof.
  intros Hinv. destruct (dial_err env (now w)) as [err|] eqn:Hd.
  - rewrite (watchInvoices_dial_failed _ _ Hd).
    apply inv_advance; [done|by repeat constructor].
  - destruct (subscribe_invoices env (S (now w))) as [sub|err] eqn:Hs.
    + rewrite (watchInvoices_subscribed _ _ _ Hd Hs).
      apply inv_defer, inv_watchInvoices_loop.
      apply inv_advance; [done|by repeat constructor].
    + rewrite (watchInvoices_subscribe_failed _ _ Hd Hs).
      apply inv_advance; [done|by repeat constructor].
Qed.

Lemma inv_run_ops ops w :
  settlement_inv st0 w -> settlement_inv st0 (run_ops env ops w).
Proof.
  revert w. induction ops as [|o ops IH]; intros w Hinv; [done|].
  cbn. apply IH. destruct o; cbn; [by apply inv_checkPayments|by apply inv_watchInvoices].
Qed.

Lemma inv_restart w : settlement_inv st0 w -> settlement_inv (store w) w.
Proof. intros [Hw _]. split; [done|]. intros ref. by left. Qed.

Lemma inv_monotone w ref :
  settlement_inv st0 w -> is_settled st0 ref -> is_settled (store w) ref.
Proof.
  intros [_ Hst] Hset. unfold is_settled in *.
  destruct (Hst ref) as [->|(d0 & pr & H1 & -> & _)]; [done|].
  cbn. unfold mark_settled. by rewrite lookup_insert_eq.
Qed.

End Invariant.

(** C1. Start from any store and run the two update paths, [checkPayments]
    and [watchInvoices], any number of times in any order, whatever the
    outside world answers.  Then (a) every write issued sets "settled" to
    [true], never to anything else; (b) a record that is settled at the
    start, or after any first part of the run, is still settled at the end;
    (c) a record that is settled at the end was settled at the start, or the
    ledger said in the run that the invoice of its payment request is
    settled: by a lookup of the decoded hash in the scanner, or by a settled
    invoice received on the subscription. *)
Theorem settled_only_on_ledger_report (env : Env) (ops : list op)
    (st : gmap string (gmap string value)) (t0 : nat) :
  let w0 := {| store := st; now := t0; trace := [] |} in
  let w := run_ops env ops w0 in
  (forall ref path v res,
      EvUpdate ref path v res ∈ trace w -> path = "settled" /\ v = VBool true) /\
  (forall ops1 ops2 ref,
      ops = ops1 ++ ops2 ->
      is_settled (store (run_ops env ops1 w0)) ref -> is_settled (store w) ref) /\
  (forall ref,
      is_settled (store w) ref ->
      is_settled st ref \/
      exists d pr,
        st !! ref = Some d /\ invoice_of d = Some pr /\
        ledger_settled (trace w) pr).
Proof.
  cbv zeta.
  assert (settlement_inv st {| store := st; now := t0; trace := [] |}) as Hinit.
  { split; [constructor|]. intros ref. by left. }
  split; [|split].
  - apply (inv_run_ops env st ops) in Hinit as [Hw _].
    intros ref path v res Hin. rewrite Forall_forall in Hw.
    exact (Hw _ Hin).
  - intros ops1 ops2 ref -> Hset.
    apply (inv_run_ops env st ops1), inv_restart in Hinit.
    apply (inv_run_ops env _ ops2) in Hinit.
    unfold run_ops in *. rewrite foldl_app.
    by eapply inv_monotone.
  - apply (inv_run_ops env st ops) in Hinit as [_ Hst].
    intros ref Hset. unfold is_settled in *.
    destruct (Hst ref) as [H|(d0 & pr & H1 & H2 & H3 & H4)].
    + left. by rewrite <- H.
    + right. by exists d0, pr.
Qed.

(** ** More on the stream consumer *)

Section ConsumerMore.

Variable env : Env.

(** X1. Invoices received that are not settled cause no call to the store or
    to the ledger: the loop only records the receives and goes on. *)
Theorem watchInvoices_loop_ignores_unsettled (invs : list Invoice)
    (sub : list (result Invoice)) (w : World) :
  Forall (fun inv => Settled inv = false) invs ->
  watchInvoices_loop env ((Ok <$> invs) ++ sub) w =
  watchInvoices_loop env sub
    (advance w 0 ((fun inv => EvRecv (Ok inv)) <$> invs)).
Proof.
  intros Hall. revert w. induction Hall as [|inv invs Hs _ IH]; intros w.
  - cbn. f_equal. unfold advance. destruct w; cbn. by rewrite app_nil_r.
  - cbn [fmap list_fmap app watchInvoices_loop].
    rewrite (bind_eq _ _ _ _ _ (emit_eq _ _)).
    rewrite (bind_eq _ _ _ _ _ (on_invoice_unsettled env inv _ Hs)).
    rewrite IH. f_equal. unfold advance; cbn. by rewrite <- app_assoc.
Qed.

(** X2. A settled invoice whose payment request a record carries, with the
    store answering: the first such record gets "settled" set to [true] by
    one update; it is then settled, its other fields are as the query saw
    them, every other document is untouched, and the loop goes on. *)
Theorem watchInvoices_loop_marks_first_match (inv : Invoice)
    (s : DocumentSnapshot) (others : list DocumentSnapshot)
    (sub : list (result Invoice)) (w : World) :
  Settled inv = true ->
  getall_err env (now w) = None ->
  matching (PaymentRequest inv) (store w) = s :: others ->
  update_err env (S (now w)) (Ref s) = None ->
  let st' := <[Ref s := mark_settled (Data s)]> (store w) in
  watchInvoices_loop env (Ok inv :: sub) w =
    watchInvoices_loop env sub
      (advance_to w st' 2
         [EvRecv (Ok inv);
          EvPrintln ["Received "; PaymentRequest inv];
          EvGetAll (Limit 1 (Where "invoice" (VString (PaymentRequest inv)))) (Ok [s]);
          EvUpdate (Ref s) "settled" settled_true None]) /\
  is_settled st' (Ref s) /\
  (forall d' k, st' !! Ref s = Some d' -> k <> "settled" -> d' !! k = Data s !! k) /\
  (forall r, r <> Ref s -> st' !! r = store w !! r).
Proof.
  intros Hs Hq Hm Hu st'.
  assert (store w !! Ref s = Some (Data s)) as Hdoc.
  { apply (query_sound (Where "invoice" (VString (PaymentRequest inv)))).
    fold (matching (PaymentRequest inv) (store w)). rewrite Hm.
    apply list_elem_of_here. }
  split; [|split; [|split]].
  - cbn [watchInvoices_loop].
    rewrite (bind_eq _ _ _ _ _ (emit_eq _ _)).
    erewrite bind_eq; [reflexivity|].
    rewrite on_invoice_query_ok by done.
    cbn [advance store]. rewrite Hm. cbn [take update_all].
    erewrite bind_eq; [|by eapply Update_ok]. cbv beta.
    unfold mret, M_ret, ret. f_equal.
    unfold advance_to; cbn. f_equal. by rewrite <- !app_assoc.
  - unfold is_settled, st'. rewrite lookup_insert_eq. cbn.
    unfold mark_settled. by rewrite lookup_insert_eq.
  - intros d' k Hd' Hk. unfold st' in Hd'. rewrite lookup_insert_eq in Hd'.
    injection Hd' as <-. unfold mark_settled. by rewrite lookup_insert_ne.
  - intros r Hr. unfold st'. by rewrite lookup_insert_ne.
Qed.

(** X3. A settled invoice received while the store does not answer the query:
    the consumer prints a line and goes on with the next receive; it issues
    no update and does not ask again, so the store is as it was. *)
Theorem watchInvoices_loop_query_failure_continues (inv : Invoice)
    (err : error) (sub : list (result Invoice)) (w : World) :
  Settled inv = true ->
  getall_err env (now w) = Some err ->
  watchInvoices_loop env (Ok inv :: sub) w =
  watchInvoices_loop env sub
    (advance w 1
       [EvRecv (Ok inv);
        EvPrintln ["Received "; PaymentRequest inv];
        EvGetAll (Limit 1 (Where "invoice" (VString (PaymentRequest inv)))) (Err err);
        EvPrintln ["Couldn't find invoice in firebase"]]).
Proof.
  intros Hs Hq. cbn [watchInvoices_loop].
  rewrite (bind_eq _ _ _ _ _ (emit_eq _ _)).
  erewrite bind_eq; [|by apply on_invoice_query_failed].
  f_equal. by rewrite advance_advance.
Qed.

Lemma update_all_only_updates l w :
  exists st n evs,
    update_all env l w = (Returned tt, advance_to w st n evs) /\
    Forall (fun e => exists r res, e = EvUpdate r "settled" settled_true res) evs.
Proof.
  revert w. induction l as [|s l IH]; intros w.
  - exists (store w), 0, []. by rewrite advance_to_0.
  - destruct (Update_cases env (Ref s) "settled" settled_true w)
      as (res & st1 & Hup & _).
    destruct (IH (advance_to w st1 1 [EvUpdate (Ref s) "settled" settled_true res]))
      as (st & n & evs & Hrun & Hev).
    exists st, (n + 1), (EvUpdate (Ref s) "settled" settled_true res :: evs).
    split; [|constructor; [by eexists _, _|done]].
    cbn [update_all]. rewrite (bind_eq _ _ _ _ _ Hup), Hrun.
    by rewrite advance_to_advance_to.
Qed.

(** The handling of one invoice talks to the store only. *)
Lemma on_invoice_quiet inv w :
  exists st n evs,
    on_invoice env inv w = (Returned tt, advance_to w st n evs) /\
    receives evs = 0 /\ (EvCloseSend ∉ evs) /\ Forall stream_event evs.
Proof.
  destruct (Settled inv) eqn:Hs.
  - destruct (getall_err env (now w)) as [err|] eqn:Hq.
    + eexists (store w), 1, _. split; [by apply on_invoice_query_failed|].
      split; [done|]. split; [|by repeat constructor].
      rewrite !elem_of_cons, elem_of_nil. intros [?|[?|[?|?]]]; done.
    + rewrite on_invoice_query_ok by done.
      edestruct update_all_only_updates as (st & n & evs & -> & Hev).
      rewrite advance_to_advance. eexists st, _, _. split; [reflexivity|].
      assert (receives evs = 0 /\ (EvCloseSend ∉ evs) /\ Forall stream_event evs)
        as (Hr & Hc & Hst).
      { clear -Hev. induction Hev as [|e evs (r & res & ->) _ (IH1 & IH2 & IH3)].
        - split; [done|]. split; [apply not_elem_of_nil|constructor].
        - split; [exact IH1|]. split; [|by constructor].
          rewrite elem_of_cons. by intros [?|?]. }
      split; [exact Hr|]. split.
      * rewrite elem_of_app, !elem_of_cons, elem_of_nil.
        intros [[?|[?|?]]|?]; done.
      * apply Forall_app. split; [by repeat constructor|done].
  - exists (store w), 0, []. rewrite advance_to_0.
    split; [by apply on_invoice_unsettled|].
    split; [done|]. split; [apply not_elem_of_nil|constructor].
Qed.

Lemma watchInvoices_loop_invoices_received invs w :
  exists st n evs,
    (forall sub, watchInvoices_loop env ((Ok <$> invs) ++ sub) w =
                 watchInvoices_loop env sub (advance_to w st n evs)) /\
    (EvCloseSend ∉ evs) /\
    receives evs = length invs.
Proof.
  revert w. induction invs as [|inv invs IH]; intros w.
  - exists (store w), 0, []. rewrite advance_to_0.
    split; [done|]. split; [apply not_elem_of_nil|done].
  - destruct (on_invoice_quiet inv (advance w 0 [EvRecv (Ok inv)]))
      as (st1 & n1 & evs1 & Hrun & Hr1 & Hc1 & _).
    destruct (IH (advance_to (advance w 0 [EvRecv (Ok inv)]) st1 n1 evs1))
      as (st & n & evs & Hloop & Hclose & Hrecv).
    exists st, (n + (n1 + 0)), ((EvRecv (Ok inv) :: evs1) ++ evs).
    split; [|split].
    + intros sub. cbn [fmap list_fmap app watchInvoices_loop].
      rewrite (bind_eq _ _ _ _ _ (emit_eq _ _)).
      rewrite (bind_eq _ _ _ _ _ Hrun). cbv beta iota. rewrite Hloop.
      f_equal. unfold advance_to, advance; cbn.
      f_equal; [lia|]. by rewrite <- !app_assoc.
    + rewrite elem_of_app, elem_of_cons. intros [[Hin|Hin]|Hin]; done.
    + unfold receives in *. rewrite omap_app, length_app. cbn.
      by rewrite Hr1, Hrecv.
Qed.

(** X4. A receive error that is not end-of-stream ends [watchInvoices]: it
    prints the error and returns, after the deferred close, without calling
    [CloseSend]; nothing that the stream would have delivered after the
    error is received. *)
Theorem watchInvoices_stops_at_error (invs : list Invoice) (err : error)
    (rest : list (result Invoice)) (w : World) :
  err <> EOF ->
  dial_err env (now w) = None ->
  subscribe_invoices env (S (now w)) = Ok ((Ok <$> invs) ++ Err err :: rest) ->
  exists st n evs,
    watchInvoices env w =
      (Returned tt,
       advance_to w st n
         (evs ++ [EvRecv (Err err); EvPrintln [error_string err]; EvConnClose])) /\
    (EvCloseSend ∉ evs) /\
    receives evs = length invs.
Proof.
  intros Herr Hd Hs. rewrite (watchInvoices_subscribed _ _ _ Hd Hs).
  destruct (watchInvoices_loop_invoices_received invs
              (advance w 2 [EvDial None; EvSubscribeInvoices None]))
    as (st & n & evs & Hloop & Hclose & Hrecv).
  exists st, (0 + (0 + (n + 2))),
    ([EvDial None; EvSubscribeInvoices None] ++ evs).
  split; [|split].
  - erewrite defer_returned;
      [|rewrite Hloop; apply watchInvoices_loop_error].
    destruct (decide (err = EOF)); [done|].
    f_equal. rewrite advance_advance, advance_to_advance.
    unfold advance, advance_to; cbn. f_equal. by rewrite <- !app_assoc.
  - rewrite elem_of_app, !elem_of_cons, elem_of_nil.
    intros [[Hin|[Hin|Hin]]|Hin]; done.
  - exact Hrecv.
Qed.

End ConsumerMore.

(** ** More on the scanner *)

Section ScannerMore.

Variable env : Env.

Lemma query_complete q (st : gmap string (gmap string value)) r d :
  q_limit q = None ->
  st !! r = Some d ->
  d !! q_path q = Some (q_value q) ->
  {| Ref := r; Data := d |} ∈ run_query q st.
Proof.
  intros Hlim Hst Hfield. unfold run_query. rewrite Hlim. cbn.
  apply list_elem_of_filter. split; [done|].
  apply list_elem_of_fmap. exists (r, d). split; [done|].
  by apply elem_of_map_to_list.
Qed.

Lemma scanned_keeps_settled s invoice w w' r :
  scanned env s invoice w w' ->
  is_settled (store w) r -> is_settled (store w') r.
Proof.
  intros H Hset. destruct H; try done. cbn. unfold is_settled in *.
  destruct (decide (r = Ref s)) as [->|Hne].
  - rewrite lookup_insert_eq. cbn. unfold mark_settled.
    by rewrite lookup_insert_eq.
  - by rewrite lookup_insert_ne.
Qed.

Lemma scanned_keeps_docs s invoice w w' r :
  scanned env s invoice w w' ->
  is_Some (store w !! r) -> is_Some (store w' !! r).
Proof.
  intros H Hdoc. destruct H; try done. cbn.
  destruct (decide (r = Ref s)) as [->|Hne].
  - rewrite lookup_insert_eq. by eexists.
  - by rewrite lookup_insert_ne.
Qed.

Lemma checkPayments_loop_keeps_settled l w r :
  is_settled (store w) r -> is_settled (store (checkPayments_loop env l w).2) r.
Proof.
  revert w. induction l as [|s l IH]; intros w Hset; [done|].
  destruct (invoice_of (Data s)) as [invoice|] eqn:Hinv.
  - destruct (checkPayment_scanned env s invoice w Hinv) as (w' & Hrun & Hsc).
    rewrite (checkPayments_loop_cons _ _ _ _ _ Hrun). apply IH.
    by eapply scanned_keeps_settled.
  - by rewrite checkPayments_loop_panics.
Qed.

Lemma checkPayments_loop_settles l w s pr decoded lnInvoice :
  s ∈ l ->
  Forall (fun s' => is_Some (invoice_of (Data s'))) l ->
  is_Some (store w !! Ref s) ->
  invoice_of (Data s) = Some pr ->
  (forall t, decode_payreq env t pr = Ok decoded) ->
  (forall t, lookup_invoice env t (PaymentHash decoded) = Ok lnInvoice) ->
  Settled lnInvoice = true ->
  (forall t, update_err env t (Ref s) = None) ->
  is_settled (store (checkPayments_loop env l w).2) (Ref s).
Proof.
  intros Hin Hgood Hdoc Hpr Hdec Hlook Hset Hup. revert w Hdoc Hin.
  induction Hgood as [|s' l [invoice Hinv] _ IH]; intros w Hdoc Hin.
  - by apply elem_of_nil in Hin.
  - destruct (checkPayment_scanned env s' invoice w Hinv) as (w' & Hrun & Hsc).
    rewrite (checkPayments_loop_cons _ _ _ _ _ Hrun).
    apply elem_of_cons in Hin as [<-|Hin].
    + apply checkPayments_loop_keeps_settled.
      assert (invoice = pr) as -> by congruence.
      pose proof (Hdec (now w)) as Hd. pose proof (Hlook (S (now w))) as Hl.
      pose proof (Hup (S (S (now w)))) as Hu.
      destruct Hdoc as [d Hdoc].
      destruct Hsc as [err Hd'|dec err Hd' Hl'|dec inv Hd' Hl' Hs'
                      |dec inv err Hd' Hl' Hs' Hu'|dec inv d' Hd' Hl' Hs' Hu' Hst'];
        try congruence.
      * unfold update_answer in Hu'. by rewrite Hu, Hdoc in Hu'.
      * cbn. unfold is_settled. rewrite lookup_insert_eq. cbn.
        unfold mark_settled. by rewrite lookup_insert_eq.
    + apply IH; [|done]. by eapply scanned_keeps_docs.
Qed.

(** X5. A pass over a store whose unsettled records all carry a string in
    "invoice", with lnd reachable and the listing answered: a record listed
    as unsettled whose payment request decodes, whose invoice the ledger
    holds as settled and whose update the store accepts is settled when the
    pass returns, and the pass does return. *)
Theorem checkPayments_settles_paid_record (w : World) (ref : string)
    (d : gmap string value) (pr : string) (decoded : PayReq)
    (lnInvoice : Invoice) :
  dial_err env (now w) = None ->
  getall_err env (S (now w)) = None ->
  Forall (fun s => is_Some (invoice_of (Data s))) (unsettled (store w)) ->
  store w !! ref = Some d ->
  d !! "settled" = Some (VBool false) ->
  invoice_of d = Some pr ->
  (forall t, decode_payreq env t pr = Ok decoded) ->
  (forall t, lookup_invoice env t (PaymentHash decoded) = Ok lnInvoice) ->
  Settled lnInvoice = true ->
  (forall t, update_err env t ref = None) ->
  (checkPayments env w).1 = Returned tt /\
  is_settled (store (checkPayments env w).2) ref.
Proof.
  intros Hd Hq Hgood Hdoc Hfalse Hpr Hdec Hlook Hset Hup.
  rewrite (checkPayments_listed env _ Hd Hq).
  match goal with |- context [defer clean _ ?w0] =>
    destruct (checkPayments_loop_good env (unsettled (store w)) w0 Hgood)
      as (st & n & evs & Hloop & _ & _);
    pose proof (checkPayments_loop_settles (unsettled (store w)) w0
                  {| Ref := ref; Data := d |} pr decoded lnInvoice) as Hconv
  end.
  rewrite (defer_returned _ _ _ _ Hloop). cbn [fst snd advance store].
  split; [done|].
  rewrite Hloop in Hconv.
  apply Hconv; first [done|by apply query_complete|by (cbn; eexists)].
Qed.

(** X6. A pass writes only to documents listed as unsettled: a reference whose
    document is absent, or does not have "settled" equal to [false], is after
    [checkPayments] what it was before, however the pass ends. *)
Theorem checkPayments_leaves_unlisted (w : World) (ref : string) :
  (forall d, store w !! ref = Some d -> d !! "settled" <> Some (VBool false)) ->
  store (checkPayments env w).2 !! ref = store w !! ref.
Proof.
  intros Hnot.
  assert (ref ∉ (Ref <$> unsettled (store w))) as Hfresh.
  { intros Hin. apply list_elem_of_fmap in Hin as (s & -> & Hin).
    apply query_sound in Hin as [Hst Hfield]. by eapply Hnot. }
  destruct (dial_err env (now w)) as [err|] eqn:Hd.
  - by rewrite (checkPayments_dial_failed _ _ _ Hd).
  - destruct (getall_err env (S (now w))) as [err|] eqn:Hq.
    + by rewrite (checkPayments_listing_failed _ _ _ Hd Hq).
    + rewrite (checkPayments_listed _ _ Hd Hq).
      match goal with |- context [defer clean ?b ?w0] =>
        destruct (defer_world b w0) as [_ [-> | ->]]
      end; cbn [advance store]; by rewrite checkPayments_loop_frame.
Qed.

End ScannerMore.

(** X7. Whatever sequence of [checkPayments] and [watchInvoices] runs and
    whatever the outside world answers, the two paths create no document,
    delete none, and change no field other than "settled". *)
Theorem update_paths_change_settled_only (env : Env) (ops : list op)
    (st : gmap string (gmap string value)) (t0 : nat) (ref : string) :
  let w := run_ops env ops {| store := st; now := t0; trace := [] |} in
  match st !! ref with
  | None => store w !! ref = None
  | Some d =>
      exists d', store w !! ref = Some d' /\
                 forall k, k <> "settled" -> d' !! k = d !! k
  end.
Proof.
  cbv zeta.
  assert (settlement_inv st {| store := st; now := t0; trace := [] |}) as Hinit.
  { split; [constructor|]. intros r. by left. }
  apply (inv_run_ops env st ops) in Hinit as [_ Hst].
  destruct (Hst ref) as [->|(d0 & pr & -> & -> & _)].
  - destruct (st !! ref) as [d|]; [|done]. by exists d.
  - exists (mark_settled d0). split; [done|].
    intros k Hk. unfold mark_settled. by rewrite lookup_insert_ne.
Qed.

(** ** The process as a whole *)

Section ProcessMore.

Variable env : Env.

Lemma scanned_record_events s invoice w w' :
  scanned env s invoice w w' ->
  exists st n evs, w' = advance_to w st n evs /\ Forall record_event evs.
Proof.
  intros H. destruct H; eexists _, _, _;
    (split; [reflexivity|by repeat constructor]).
Qed.

Lemma checkPayments_loop_events l w :
  exists st n evs,
    (checkPayments_loop env l w).2 = advance_to w st n evs /\
    Forall record_event evs /\
    ((checkPayments_loop env l w).1 = Returned tt \/
     (checkPayments_loop env l w).1 = Panicked panic_message).
Proof.
  revert w. induction l as [|s l IH]; intros w.
  - exists (store w), 0, []. rewrite advance_to_0. split; [done|]. by split; [|left].
  - destruct (invoice_of (Data s)) as [invoice|] eqn:Hinv.
    + destruct (checkPayment_scanned env s invoice w Hinv) as (w' & Hrun & Hsc).
      apply scanned_record_events in Hsc as (st1 & n1 & evs1 & -> & Hev1).
      destruct (IH (advance_to w st1 n1 evs1)) as (st & n & evs & Hw & Hev & Hout).
      rewrite (checkPayments_loop_cons _ _ _ _ _ Hrun).
      exists st, (n + n1), (evs1 ++ evs).
      rewrite Hw, advance_to_advance_to. split; [done|].
      split; [by apply Forall_app|done].
    + rewrite checkPayments_loop_panics by done.
      exists (store w), 0, []. rewrite advance_to_0. split; [done|]. by split; [|right].
Qed.

Lemma watchInvoices_loop_events sub w :
  exists st n evs,
    (watchInvoices_loop env sub w).2 = advance_to w st n evs /\
    Forall stream_event evs /\
    ((watchInvoices_loop env sub w).1 = Returned tt \/
     (watchInvoices_loop env sub w).1 = Blocked).
Proof.
  revert w. induction sub as [|[inv|err] sub IH]; intros w.
  - exists (store w), 0, []. rewrite advance_to_0. split; [done|]. by split; [|right].
  - destruct (on_invoice_quiet env inv (advance w 0 [EvRecv (Ok inv)]))
      as (st1 & n1 & evs1 & Hrun & _ & _ & Hev1).
    destruct (IH (advance_to (advance w 0 [EvRecv (Ok inv)]) st1 n1 evs1))
      as (st & n & evs & Hw & Hev & Hout).
    cbn [watchInvoices_loop].
    rewrite (bind_eq _ _ _ _ _ (emit_eq _ _)), (bind_eq _ _ _ _ _ Hrun).
    exists st, (n + n1 + 0), ((EvRecv (Ok inv) :: evs1) ++ evs).
    rewrite Hw, advance_to_advance_to, advance_to_advance.
    split; [done|]. split; [|done].
    apply Forall_app. split; [by constructor|done].
  - rewrite watchInvoices_loop_error. eexists (store w), 0, _.
    split; [reflexivity|]. split; [|by left].
    destruct (decide (err = EOF)); by repeat constructor.
Qed.

Lemma record_event_closes evs : Forall record_event evs -> conn_closes evs = 0.
Proof. induction 1 as [|e evs He _ IH]; [done|]. by destruct e. Qed.

Lemma stream_event_closes evs : Forall stream_event evs -> conn_closes evs = 0.
Proof. induction 1 as [|e evs He _ IH]; [done|]. by destruct e. Qed.

Lemma conn_closes_app a b : conn_closes (a ++ b) = conn_closes a + conn_closes b.
Proof. unfold conn_closes. by rewrite omap_app, length_app. Qed.

(** How [checkPayments] ends, and with which events. *)
Lemma checkPayments_shape w :
  exists st n evs,
    (checkPayments env w).2 = advance_to w st n evs /\
    Forall scanner_event evs /\
    (((checkPayments env w).1 = Exited 1 /\ conn_closes evs = 0) \/
     (((checkPayments env w).1 = Returned tt \/
       (checkPayments env w).1 = Panicked panic_message) /\
      conn_closes evs = 1 /\ last evs = Some EvConnClose)).
Proof.
  destruct (dial_err env (now w)) as [err|] eqn:Hd.
  - rewrite (checkPayments_dial_failed _ _ _ Hd).
    eexists (store w), 1, _. split; [reflexivity|].
    split; [by repeat constructor|by left].
  - destruct (getall_err env (S (now w))) as [err|] eqn:Hq.
    + rewrite (checkPayments_listing_failed _ _ _ Hd Hq).
      eexists (store w), 2, _. split; [reflexivity|].
      split; [by repeat constructor|by left].
    + rewrite (checkPayments_listed _ _ Hd Hq).
      match goal with |- context [defer clean _ ?w0] =>
        destruct (checkPayments_loop_events (unsettled (store w)) w0)
          as (st & n & evs & Hw & Hev & Hout);
        destruct (checkPayments_loop env (unsettled (store w)) w0)
          as [o w'] eqn:Hloop
      end.
      cbn in Hw, Hout. subst w'.
      exists st, (0 + (n + 2)),
        (([EvDial None;
           EvGetAll (Where "settled" (VBool false)) (Ok (unsettled (store w)))]
          ++ evs) ++ [EvConnClose]).
      assert (Forall scanner_event evs) as Hsc.
      { eapply Forall_impl; [exact Hev|]. by intros []. }
      destruct Hout as [-> | ->].
      * rewrite (defer_returned _ _ _ _ Hloop). cbn [fst snd].
        split; [unfold advance, advance_to; cbn; f_equal;
                [lia|by rewrite <- !app_assoc]|].
        split; [repeat (apply Forall_app; split); by repeat constructor|].
        right. split; [by left|]. split; [|by rewrite last_snoc].
        rewrite !conn_closes_app, (record_event_closes _ Hev). done.
      * rewrite (defer_panicked _ _ _ _ Hloop). cbn [fst snd].
        split; [unfold advance, advance_to; cbn; f_equal;
                [lia|by rewrite <- !app_assoc]|].
        split; [repeat (apply Forall_app; split); by repeat constructor|].
        right. split; [by right|]. split; [|by rewrite last_snoc].
        rewrite !conn_closes_app, (record_event_closes _ Hev). done.
Qed.

(** How [watchInvoices] ends, and with which events. *)
Lemma watchInvoices_shape w :
  exists st n evs,
    (watchInvoices env w).2 = advance_to w st n evs /\
    Forall (fun e => late_event e /\ is_serve e = false) evs /\
    ((((watchInvoices env w).1 = Exited 1 \/ (watchInvoices env w).1 = Blocked) /\
      conn_closes evs = 0) \/
     ((watchInvoices env w).1 = Returned tt /\
      conn_closes evs = 1 /\ last evs = Some EvConnClose)).
Proof.
  destruct (dial_err env (now w)) as [err|] eqn:Hd.
  - rewrite (watchInvoices_dial_failed _ _ _ Hd).
    eexists (store w), 1, _. split; [reflexivity|].
    split; [by repeat constructor|]. left. split; [by left|done].
  - destruct (subscribe_invoices env (S (now w))) as [sub|err] eqn:Hs.
    + rewrite (watchInvoices_subscribed _ _ _ Hd Hs).
      match goal with |- context [defer clean _ ?w0] =>
        destruct (watchInvoices_loop_events sub w0)
          as (st & n & evs & Hw & Hev & Hout);
        destruct (watchInvoices_loop env sub w0) as [o w'] eqn:Hloop
      end.
      cbn in Hw, Hout. subst w'.
      assert (Forall (fun e => late_event e /\ is_serve e = false) evs) as Hl.
      { eapply Forall_impl; [exact Hev|]. by intros []. }
      destruct Hout as [-> | ->].
      * rewrite (defer_returned _ _ _ _ Hloop). cbn [fst snd].
        exists st, (0 + (n + 2)),
          (([EvDial None; EvSubscribeInvoices None] ++ evs) ++ [EvConnClose]).
        split; [unfold advance, advance_to; cbn; f_equal;
                [lia|by rewrite <- !app_assoc]|].
        split; [repeat (apply Forall_app; split); by repeat constructor|].
        right. split; [done|]. split; [|by rewrite last_snoc].
        rewrite !conn_closes_app, (stream_event_closes _ Hev). done.
      * rewrite (defer_blocked _ _ _ Hloop). cbn [fst snd].
        rewrite advance_to_advance.
        exists st, (n + 2), ([EvDial None; EvSubscribeInvoices None] ++ evs).
        split; [done|].
        split; [apply Forall_app; split; by repeat constructor|].
        left. split; [by right|].
        rewrite conn_closes_app, (stream_event_closes _ Hev). done.
    + rewrite (watchInvoices_subscribe_failed _ _ _ Hd Hs).
      eexists (store w), 2, _. split; [reflexivity|].
      split; [by repeat constructor|]. right. by repeat split.
Qed.

(** X8. Each of the two paths closes the connection to lnd it opened, once and
    as the last thing it does, whenever it returns or panics; it does not
    close it when the process exits or the path waits on the stream. *)
Theorem connection_closed_on_return (o : op) (w : World) :
  let r := match o with
           | OpCheckPayments => checkPayments env w
           | OpWatchInvoices => watchInvoices env w
           end in
  exists st n evs,
    r.2 = advance_to w st n evs /\
    match r.1 with
    | Returned _ | Panicked _ => conn_closes evs = 1 /\ last evs = Some EvConnClose
    | Exited _ | Blocked => conn_closes evs = 0
    end.
Proof.
  cbv zeta. destruct o.
  - destruct (checkPayments_shape w) as (st & n & evs & Hw & _ & H).
    exists st, n, evs. split; [done|].
    destruct H as [[-> H]|[[-> | ->] H]]; done.
  - destruct (watchInvoices_shape w) as (st & n & evs & Hw & _ & H).
    exists st, n, evs. split; [done|].
    destruct H as [[[-> | ->] H]|[-> H]]; done.
Qed.

End ProcessMore.

Section ProcessMain.

Variable env : Env.

Lemma main_newapp_failed w err :
  newapp_err env = Some err ->
  main env w =
  (Exited 1,
   advance w 0 [EvNewApp (Some err);
                EvStderr (String.append "[chat-backend] " (error_string err))]).
Proof.
  intros Ha. unfold main. rewrite (bind_eq _ _ _ _ _ (emit_eq _ _)), Ha.
  unfold fatal. rewrite (bind_eq _ _ _ _ _ (emit_eq _ _)).
  unfold os_Exit. by rewrite advance_advance.
Qed.

Lemma main_firestore_failed w err :
  newapp_err env = None ->
  firestore_err env = Some err ->
  main env w =
  (Exited 1,
   advance w 0 [EvNewApp None; EvFirestore (Some err);
                EvStderr (String.append "[chat-backend] " (error_string err))]).
Proof.
  intros Ha Hf. unfold main. rewrite (bind_eq _ _ _ _ _ (emit_eq _ _)), Ha.
  rewrite (bind_eq _ _ _ _ _ (emit_eq _ _)), Hf.
  unfold fatal. rewrite (bind_eq _ _ _ _ _ (emit_eq _ _)).
  unfold os_Exit. by rewrite !advance_advance.
Qed.

Lemma split_in_second {A} (P : A -> Prop) (a b pre : list A) x post :
  a ++ b = pre ++ x :: post -> Forall P a -> ~ P x ->
  exists b1, b = b1 ++ x :: post.
Proof.
  revert pre. induction a as [|y a IH]; intros pre Heq Ha Hx.
  - by exists pre.
  - destruct pre as [|z pre]; cbn in Heq; injection Heq as -> Heq.
    + by apply Forall_cons_1 in Ha as [? _].
    + apply Forall_cons_1 in Ha as [_ Ha]. by eapply IH.
Qed.

Lemma serve_cases w :
  match router_err env with
  | Some err =>
      serve env w =
      (Exited 1,
       advance w 0 [EvStderr (String.append "[chat-backend] " (error_string err))])
  | None =>
      match listen_err env with
      | None =>
          serve env w =
          (Blocked, advance w 0 [EvListenAndServe (httpsEnabled env)])
      | Some err =>
          serve env w =
          (Exited 1,
           advance w 0 [EvListenAndServe (httpsEnabled env);
                        EvLogFatalln [error_string err]])
      end
  end.
Proof.
  unfold serve. destruct (router_err env) as [err|].
  - unfold fatal. rewrite (bind_eq _ _ _ _ _ (emit_eq _ _)). done.
  - rewrite (bind_eq _ _ _ _ _ (emit_eq _ _)).
    destruct (listen_err env) as [err|]; [|done].
    unfold log_Fatal. rewrite (bind_eq _ _ _ _ _ (emit_eq _ _)).
    unfold os_Exit. by rewrite advance_advance.
Qed.

(** The two phases of [main]: its events are those of the start-up and of
    the scanner, then those of the stream consumer; the front end comes
    after them, and only when both paths returned. *)
Lemma main_phases w :
  let w0 := advance w 0 [EvNewApp None; EvFirestore None] in
  let w1 := (checkPayments env w0).2 in
  let reached :=
    newapp_err env = None /\ firestore_err env = None /\
    (checkPayments env w0).1 = Returned tt /\
    (watchInvoices env w1).1 = Returned tt in
  exists st n e1 e2,
    Forall startup_event e1 /\
    Forall (fun e => late_event e /\ is_serve e = false) e2 /\
    ((reached /\ main env w = serve env (advance_to w st n (e1 ++ e2)))
     \/ (~ reached /\
         (main env w).2 = advance_to w st n (e1 ++ e2) /\
         ((main env w).1 = Exited 1 \/
          (main env w).1 = Panicked panic_message \/
          (main env w).1 = Blocked))).
Proof.
  intros w0 w1 reached. subst reached w1.
  destruct (newapp_err env) as [err|] eqn:Ha.
  { rewrite (main_newapp_failed _ _ Ha).
    exists (store w), 0,
      [EvNewApp (Some err);
       EvStderr (String.append "[chat-backend] " (error_string err))], [].
    split; [by repeat constructor|]. split; [constructor|]. right.
    split; [by intros (? & _)|]. split; [done|by left]. }
  destruct (firestore_err env) as [err|] eqn:Hf.
  { rewrite (main_firestore_failed _ _ Ha Hf).
    exists (store w), 0,
      [EvNewApp None; EvFirestore (Some err);
       EvStderr (String.append "[chat-backend] " (error_string err))], [].
    split; [by repeat constructor|]. split; [constructor|]. right.
    split; [by intros (_ & ? & _)|]. split; [done|by left]. }
  rewrite (main_started env w Ha Hf). fold w0.
  destruct (checkPayments_shape env w0) as (st1 & n1 & evs1 & Hw1 & Hev1 & Hout1).
  assert (Forall startup_event ([EvNewApp None; EvFirestore None] ++ evs1)) as Hst.
  { apply Forall_app. split; [by repeat constructor|].
    eapply Forall_impl; [exact Hev1|]. by intros []. }
  unfold mbind, M_bind, bind.
  destruct (checkPayments env w0) as [o1 w1] eqn:Hrun1. cbn [fst snd] in *.
  subst w1.
  assert (advance_to w0 st1 n1 evs1 =
          advance_to w st1 (n1 + 0) ([EvNewApp None; EvFirestore None] ++ evs1))
    as Hw by (subst w0; by rewrite advance_to_advance).
  destruct Hout1 as [[-> _]|[[-> | ->] _]].
  - exists st1, (n1 + 0), ([EvNewApp None; EvFirestore None] ++ evs1), [].
    split; [done|]. split; [constructor|]. right.
    split; [by intros (_ & _ & ? & _)|]. rewrite app_nil_r.
    split; [done|by left].
  - destruct (watchInvoices_shape env (advance_to w0 st1 n1 evs1))
      as (st2 & n2 & evs2 & Hw2 & Hev2 & Hout2).
    destruct (watchInvoices env (advance_to w0 st1 n1 evs1)) as [o2 w2] eqn:Hrun2.
    cbn [fst snd] in *. subst w2.
    exists st2, (n2 + (n1 + 0)), ([EvNewApp None; EvFirestore None] ++ evs1), evs2.
    split; [done|]. split; [done|].
    assert (advance_to (advance_to w0 st1 n1 evs1) st2 n2 evs2 =
            advance_to w st2 (n2 + (n1 + 0))
              (([EvNewApp None; EvFirestore None] ++ evs1) ++ evs2)) as Hw'
      by (by rewrite Hw, advance_to_advance_to).
    destruct Hout2 as [[[-> | ->] _]|[-> _]].
    + right. split; [by intros (_ & _ & _ & ?)|]. split; [done|by left].
    + right. split; [by intros (_ & _ & _ & ?)|]. split; [done|by right; right].
    + left. split; [done|]. by rewrite Hw'.
  - exists st1, (n1 + 0), ([EvNewApp None; EvFirestore None] ++ evs1), [].
    split; [done|]. split; [constructor|]. right.
    split; [by intros (_ & _ & ? & _)|]. rewrite app_nil_r.
    split; [done|by right; left].
Qed.

(** X9. The process never returns from [main], and these are all its ends.
    On a command line that [flag.Parse()] rejects it prints the usage and
    exits with the status of the flag package, before anything else is
    done.  Otherwise it ends by [os.Exit(1)], by the panic of the type
    assertion in the scanner, or it stays, waiting on the subscription or
    serving. *)
Theorem main_entry_outcome (flags : flag_result) (w : World) :
  match flags with
  | FlagsRejected usage status =>
      main_entry env flags w = (Exited status, advance w 0 [EvStderr usage])
  | FlagsParsed =>
      (main_entry env flags w).1 = Exited 1 \/
      (main_entry env flags w).1 = Panicked panic_message \/
      (main_entry env flags w).1 = Blocked
  end.
Proof.
  destruct flags as [|usage status]; [|done]. cbn [main_entry].
  destruct (main_phases w) as (st & n & e1 & e2 & _ & _ & [[_ ->]|(_ & _ & H)]);
    [|done].
  match goal with |- context [serve env ?w0] =>
    pose proof (serve_cases w0) as Hserve
  end.
  destruct (router_err env); [rewrite Hserve; by left|].
  destruct (listen_err env); rewrite Hserve; [by left|by right; right].
Qed.

(** X10. The front end is started exactly when the command line was
    accepted, Firebase was set up, both [checkPayments] and [watchInvoices]
    returned and the router was built.  Once started, either it serves for
    the life of the process and [ListenAndServe] is the last thing [main]
    does, or the listener fails and [main] logs the error and exits with
    status 1. *)
Theorem main_serves_iff_paths_returned (flags : flag_result) (w : World) :
  let w0 := advance w 0 [EvNewApp None; EvFirestore None] in
  let w1 := (checkPayments env w0).2 in
  exists st n evs,
    (main_entry env flags w).2 = advance_to w st n evs /\
    ((exists https, EvListenAndServe https ∈ evs) <->
     (flags = FlagsParsed /\
      newapp_err env = None /\ firestore_err env = None /\
      (checkPayments env w0).1 = Returned tt /\
      (watchInvoices env w1).1 = Returned tt /\
      router_err env = None)) /\
    ((exists https, EvListenAndServe https ∈ evs) ->
     match listen_err env with
     | None =>
         (main_entry env flags w).1 = Blocked /\
         last evs = Some (EvListenAndServe (httpsEnabled env))
     | Some err =>
         (main_entry env flags w).1 = Exited 1 /\
         last evs = Some (EvLogFatalln [error_string err])
     end).
Proof.
  intros w0 w1.
  assert (forall l1 l2 : list event,
            Forall startup_event l1 ->
            Forall (fun e => late_event e /\ is_serve e = false) l2 ->
            ~ exists https, EvListenAndServe https ∈ l1 ++ l2) as Hnone.
  { intros l1 l2 H1 H2 [b Hin]. apply elem_of_app in Hin as [Hin|Hin].
    - rewrite Forall_forall in H1. by apply H1 in Hin.
    - rewrite Forall_forall in H2. by apply H2 in Hin as [_ ?]. }
  destruct flags as [|usage status].
  - cbn [main_entry].
    destruct (main_phases w)
      as (st & n & e1 & e2 & H1 & H2 & [[Hr ->]|(Hr & -> & _)]).
    + match goal with |- context [serve env ?w0] =>
        pose proof (serve_cases w0) as Hserve
      end.
      destruct (router_err env) as [rerr|] eqn:Hrt.
      * rewrite Hserve. rewrite advance_advance_to.
        eexists st, _, _. split; [reflexivity|]. split.
        -- split; [|by intros (_ & _ & _ & _ & _ & ?)].
           intros [b Hin]. exfalso.
           apply elem_of_app in Hin as [Hin|Hin].
           ++ by apply (Hnone e1 e2 H1 H2); exists b.
           ++ apply elem_of_cons in Hin as [?|Hin]; [done|].
              by apply elem_of_nil in Hin.
        -- intros [b Hin]. exfalso.
           apply elem_of_app in Hin as [Hin|Hin].
           ++ by apply (Hnone e1 e2 H1 H2); exists b.
           ++ apply elem_of_cons in Hin as [?|Hin]; [done|].
              by apply elem_of_nil in Hin.
      * destruct (listen_err env) as [lerr|]; rewrite Hserve, advance_advance_to.
        -- eexists st, _, _. split; [reflexivity|]. split.
           ++ split; [intros _; by destruct Hr as (? & ? & ? & ?)|].
              intros _. exists (httpsEnabled env).
              rewrite !elem_of_app, !elem_of_cons. auto.
           ++ intros _. split; [done|].
              change [EvListenAndServe (httpsEnabled env);
                      EvLogFatalln [error_string lerr]]
                with ([EvListenAndServe (httpsEnabled env)] ++
                      [EvLogFatalln [error_string lerr]]).
              by rewrite !app_assoc, last_snoc.
        -- eexists st, _, _. split; [reflexivity|]. split.
           ++ split; [intros _; by destruct Hr as (? & ? & ? & ?)|].
              intros _. exists (httpsEnabled env).
              rewrite !elem_of_app, !elem_of_cons. auto.
           ++ intros _. split; [done|]. by rewrite last_snoc.
    + exists st, n, (e1 ++ e2). split; [done|].
      split; [|by intros H; destruct (Hnone e1 e2 H1 H2)].
      split; [by intros H; destruct (Hnone e1 e2 H1 H2)|].
      intros (_ & ? & ? & ? & ? & _). by destruct Hr.
  - cbn [main_entry]. unfold os_Exit.
    rewrite (bind_eq _ _ _ _ _ (emit_eq _ _)). cbn [fst snd].
    exists (store w), 0, [EvStderr usage]. split; [done|].
    assert (~ exists https, EvListenAndServe https ∈ [EvStderr usage]) as Hno.
    { intros [b Hin]. apply elem_of_cons in Hin as [?|Hin]; [done|].
      by apply elem_of_nil in Hin. }
    split; [|by intros H; destruct Hno].
    split; [by intros H; destruct Hno|]. by intros (? & _).
Qed.

(** X11. The scanner is over before the stream consumer subscribes: after the
    call of [SubscribeInvoices], [main] sends no payment request to decode
    and looks no invoice up. *)
Theorem main_scans_before_subscribing (w : World) :
  exists st n evs,
    (main env w).2 = advance_to w st n evs /\
    forall pre res post,
      evs = pre ++ EvSubscribeInvoices res :: post ->
      Forall (fun e => is_ledger_scan e = false) post.
Proof.
  destruct (main_phases w)
    as (st & n & e1 & e2 & H1 & H2 & H).
  assert (forall tl, Forall late_event tl ->
            forall pre res post,
              e1 ++ tl = pre ++ EvSubscribeInvoices res :: post ->
              Forall (fun e => is_ledger_scan e = false) post) as Hsplit.
  { intros tl Htl pre res post Heq.
    apply (split_in_second startup_event) in Heq as [b1 ->];
      [|done|intros Hno; exact Hno].
    apply Forall_app in Htl as [_ Htl]. apply Forall_cons_1 in Htl as [_ Htl].
    eapply Forall_impl; [exact Htl|]. by intros []. }
  assert (Forall late_event e2) as Hl2.
  { eapply Forall_impl; [exact H2|]. by intros ? [? _]. }
  destruct H as [[_ ->]|(_ & -> & _)].
  - match goal with |- context [serve env ?w0] =>
      pose proof (serve_cases w0) as Hserve
    end.
    destruct (router_err env); [|destruct (listen_err env)];
      rewrite Hserve, advance_advance_to;
      (eexists st, _, _; split; [reflexivity|]);
      intros pre res post Heq; rewrite <- app_assoc in Heq;
      (eapply Hsplit; [|exact Heq]); apply Forall_app;
      (split; [done|by repeat constructor]).
  - eexists st, n, _. split; [reflexivity|]. by apply Hsplit.
Qed.

End ProcessMain.

(** ** Paths of the certificate and the macaroon *)

Section PathFacts.

Variable Clean ExpandEnv : string -> string.
Variable Join : string -> string -> string.
Variable current_home : option string.
Variable env_HOME : string.
Variable defaultLndDir : string.

Local Abbreviation expand := (cleanAndExpandPath Clean ExpandEnv current_home env_HOME).
Local Abbreviation resolve :=
  (getClientConn_paths Clean ExpandEnv Join current_home env_HOME defaultLndDir).

Lemma substring_all (s : string) : String.substring 0 (String.length s) s = s.
Proof. induction s as [|c s IH]; [done|]. cbn. by rewrite IH. Qed.

Lemma replace_first_prefix (old new s : string) :
  HasPrefix s old = true ->
  replace_first old new s =
  String.append new
    (String.substring (String.length old)
       (String.length s - String.length old) s).
Proof. intros H. destruct s; cbn [replace_first]; by rewrite H. Qed.

(** X13. [cleanAndExpandPath] replaces a leading "~", and only that one, by the
    home directory (the one of the current user, or $HOME when there is
    none) before it expands and cleans; a path that does not start with "~"
    is expanded and cleaned as it is, whatever the home directory. *)
Theorem cleanAndExpandPath_tilde (path rest : string) :
  expand (String.append "~" rest) =
    Clean (ExpandEnv (String.append (homeDir current_home env_HOME) rest)) /\
  (HasPrefix path "~" = false -> expand path = Clean (ExpandEnv path)).
Proof.
  split.
  - unfold cleanAndExpandPath.
    assert (HasPrefix (String.append "~" rest) "~" = true) as Hp
      by reflexivity.
    rewrite Hp, (replace_first_prefix _ _ _ Hp).
    change (String.append "~" rest) with (String (Ascii.ascii_of_nat 126) rest).
    cbn [String.length String.substring].
    replace (S (String.length rest) - 1) with (String.length rest) by lia.
    by rewrite substring_all.
  - intros H. unfold cleanAndExpandPath. by rewrite H.
Qed.

(** X14. [getClientConn] runs once for each of the two paths of a run and
    writes the package variables [tlsCert] and [rpcMacaroon]; a second run
    leaves them as the first one made them, so both connections load the
    same certificate and the same macaroon. *)
Theorem getClientConn_paths_idempotent (g : Globals) :
  resolve (resolve g) = resolve g /\
  tlsCertPath Clean ExpandEnv Join current_home env_HOME defaultLndDir (resolve g) =
    tlsCertPath Clean ExpandEnv Join current_home env_HOME defaultLndDir g /\
  macPath Clean ExpandEnv Join current_home env_HOME defaultLndDir (resolve g) =
    macPath Clean ExpandEnv Join current_home env_HOME defaultLndDir g.
Proof.
  assert (resolve (resolve g) = resolve g) as Hidem.
  { unfold getClientConn_paths.
    destruct (decide (expand (lndDir g) = defaultLndDir)) as [Hl|Hl].
    - by rewrite decide_True.
    - cbn [lndDir tlsCert rpcMacaroon]. rewrite decide_False by done.
      f_equal; repeat case_decide; congruence. }
  split; [done|]. unfold tlsCertPath, macPath. by rewrite Hidem.
Qed.

(** X15. A certificate path or a macaroon path given on the command line (one
    that does not clean to the default path) is the one [getClientConn]
    loads from, whatever [lndDir] is; and with [lndDir] at its default
    nothing is replaced. *)
Theorem getClientConn_keeps_explicit_paths (g : Globals) :
  (expand (tlsCert g) <> defaultTLSCertPath Join defaultLndDir ->
   tlsCert (resolve g) = tlsCert g) /\
  (expand (rpcMacaroon g) <> defaultMacaroonPath Join defaultLndDir ->
   rpcMacaroon (resolve g) = rpcMacaroon g) /\
  (expand (lndDir g) = defaultLndDir -> resolve g = g) /\
  lndDir (resolve g) = lndDir g.
Proof.
  unfold getClientConn_paths.
  destruct (decide (expand (lndDir g) = defaultLndDir)) as [Hl|Hl]; [done|].
  cbn [lndDir tlsCert rpcMacaroon].
  split; [intros H; by rewrite decide_False|].
  split; [intros H; by rewrite decide_False|]. done.
Qed.

End PathFacts.

(** ** The further properties on concrete runs *)

Lemma watchInvoices_loop_ignores_unsettled_witness :
  let invs := [unsettled_invoice "pr"; unsettled_invoice "pr2"] in
  Forall (fun inv => Settled inv = false) invs /\
  watchInvoices_loop (calm [] []) ((Ok <$> invs) ++ [Err EOF]) (start twins) =
  watchInvoices_loop (calm [] []) [Err EOF]
    (advance (start twins) 0 ((fun inv => EvRecv (Ok inv)) <$> invs)).
Proof.
  cbv zeta.
  assert (Forall (fun inv => Settled inv = false)
            [unsettled_invoice "pr"; unsettled_invoice "pr2"]) as H
    by (by repeat constructor).
  split; [exact H|].
  apply (watchInvoices_loop_ignores_unsettled (calm [] [])
           [unsettled_invoice "pr"; unsettled_invoice "pr2"] [Err EOF]
           (start twins) H).
Defined.

Lemma watchInvoices_loop_marks_first_match_witness :
  let env := calm [] [] in
  let inv := settled_invoice "pr" in
  let s := {| Ref := "m1"; Data := message "pr" false |} in
  let others := [{| Ref := "m2"; Data := message "pr" false |}] in
  let w := start twins in
  Settled inv = true /\
  getall_err env (now w) = None /\
  matching (PaymentRequest inv) (store w) = s :: others /\
  update_err env (S (now w)) (Ref s) = None /\
  let st' := <[Ref s := mark_settled (Data s)]> (store w) in
  watchInvoices_loop env [Ok inv; Err EOF] w =
    watchInvoices_loop env [Err EOF]
      (advance_to w st' 2
         [EvRecv (Ok inv);
          EvPrintln ["Received "; PaymentRequest inv];
          EvGetAll (Limit 1 (Where "invoice" (VString (PaymentRequest inv)))) (Ok [s]);
          EvUpdate (Ref s) "settled" settled_true None]) /\
  is_settled st' (Ref s) /\
  (forall d' k, st' !! Ref s = Some d' -> k <> "settled" -> d' !! k = Data s !! k) /\
  (forall r, r <> Ref s -> st' !! r = store w !! r).
Proof.
  cbv zeta. split; [reflexivity|]. split; [reflexivity|].
  split; [by vm_compute|]. split; [reflexivity|].
  apply (watchInvoices_loop_marks_first_match (calm [] [])
           (settled_invoice "pr")
           {| Ref := "m1"; Data := message "pr" false |}
           [{| Ref := "m2"; Data := message "pr" false |}]
           [Err EOF] (start twins));
    [reflexivity|reflexivity|by vm_compute|reflexivity].
Defined.

Lemma watchInvoices_loop_query_failure_continues_witness :
  let inv := settled_invoice "pr" in
  let err := RpcError "unavailable" in
  let w := start twins in
  Settled inv = true /\
  getall_err queries_down (now w) = Some err /\
  watchInvoices_loop queries_down [Ok inv; Err EOF] w =
  watchInvoices_loop queries_down [Err EOF]
    (advance w 1
       [EvRecv (Ok inv);
        EvPrintln ["Received "; PaymentRequest inv];
        EvGetAll (Limit 1 (Where "invoice" (VString (PaymentRequest inv)))) (Err err);
        EvPrintln ["Couldn't find invoice in firebase"]]).
Proof.
  cbv zeta. split; [reflexivity|]. split; [reflexivity|].
  apply (watchInvoices_loop_query_failure_continues queries_down
           (settled_invoice "pr") (RpcError "unavailable") [Err EOF]
           (start twins)); reflexivity.
Defined.

Lemma watchInvoices_stops_at_error_witness :
  let err := RpcError "transport is closing" in
  let env := calm [] [Ok (settled_invoice "pr"); Err err;
                      Ok (settled_invoice "pr2")] in
  let w := start twins in
  err <> EOF /\
  dial_err env (now w) = None /\
  subscribe_invoices env (S (now w)) =
    Ok ((Ok <$> [settled_invoice "pr"]) ++ Err err :: [Ok (settled_invoice "pr2")]) /\
  exists st n evs,
    watchInvoices env w =
      (Returned tt,
       advance_to w st n
         (evs ++ [EvRecv (Err err); EvPrintln [error_string err]; EvConnClose])) /\
    (EvCloseSend ∉ evs) /\
    receives evs = length [settled_invoice "pr"].
Proof.
  cbv zeta. split; [discriminate|]. split; [reflexivity|]. split; [reflexivity|].
  apply (watchInvoices_stops_at_error
           (calm [] [Ok (settled_invoice "pr");
                     Err (RpcError "transport is closing");
                     Ok (settled_invoice "pr2")])
           [settled_invoice "pr"] (RpcError "transport is closing")
           [Ok (settled_invoice "pr2")] (start twins));
    [discriminate|reflexivity|reflexivity].
Defined.

Lemma checkPayments_settles_paid_record_witness :
  let env := calm ["hash:pr1"] [] in
  let w := start paid_message in
  let decoded := {| PaymentHash := "hash:pr1" |} in
  let lnInvoice := {| Settled := true; PaymentRequest := "" |} in
  dial_err env (now w) = None /\
  getall_err env (S (now w)) = None /\
  Forall (fun s => is_Some (invoice_of (Data s))) (unsettled (store w)) /\
  store w !! "m1" = Some (message "pr1" false) /\
  message "pr1" false !! "settled" = Some (VBool false) /\
  invoice_of (message "pr1" false) = Some "pr1" /\
  (forall t, decode_payreq env t "pr1" = Ok decoded) /\
  (forall t, lookup_invoice env t (PaymentHash decoded) = Ok lnInvoice) /\
  Settled lnInvoice = true /\
  (forall t, update_err env t "m1" = None) /\
  (checkPayments env w).1 = Returned tt /\
  is_settled (store (checkPayments env w).2) "m1".
Proof.
  cbv zeta.
  assert (Forall (fun s => is_Some (invoice_of (Data s)))
            (unsettled (store (start paid_message)))) as Hgood.
  { replace (unsettled (store (start paid_message)))
      with [{| Ref := "m1"; Data := message "pr1" false |}] by (vm_compute; reflexivity).
    constructor; [|constructor]. exists "pr1". by vm_compute. }
  assert (store (start paid_message) !! "m1" = Some (message "pr1" false))
    as Hdoc by (vm_compute; reflexivity).
  assert (message "pr1" false !! "settled" = Some (VBool false)) as Hfalse
    by (vm_compute; reflexivity).
  assert (invoice_of (message "pr1" false) = Some "pr1") as Hpr
    by (vm_compute; reflexivity).
  assert (forall t, lookup_invoice (calm ["hash:pr1"] []) t
                      (PaymentHash {| PaymentHash := "hash:pr1" |}) =
                    Ok {| Settled := true; PaymentRequest := "" |}) as Hlook
    by (intros t; by vm_compute).
  do 2 (split; [reflexivity|]). split; [exact Hgood|]. split; [exact Hdoc|].
  split; [exact Hfalse|]. split; [exact Hpr|]. split; [reflexivity|].
  split; [exact Hlook|]. split; [reflexivity|]. split; [reflexivity|].
  apply (checkPayments_settles_paid_record (calm ["hash:pr1"] [])
           (start paid_message) "m1" (message "pr1" false) "pr1"
           {| PaymentHash := "hash:pr1" |}
           {| Settled := true; PaymentRequest := "" |});
    [reflexivity|reflexivity|exact Hgood|exact Hdoc|exact Hfalse|exact Hpr
    |reflexivity|exact Hlook|reflexivity|reflexivity].
Defined.

Lemma checkPayments_leaves_unlisted_witness :
  let env := calm ["hash:pr1"; "hash:pr2"] [] in
  let w := start archived in
  (forall d, store w !! "m1" = Some d -> d !! "settled" <> Some (VBool false)) /\
  store (checkPayments env w).2 !! "m1" = store w !! "m1".
Proof.
  cbv zeta.
  assert (forall d, store (start archived) !! "m1" = Some d ->
                    d !! "settled" <> Some (VBool false)) as H.
  { assert (store (start archived) !! "m1" = Some (message "pr1" true)) as Hst
      by (vm_compute; reflexivity).
    intros d Hd. rewrite Hst in Hd. injection Hd as <-.
    assert (message "pr1" true !! "settled" = Some (VBool true)) as ->
      by (vm_compute; reflexivity).
    discriminate. }
  split; [exact H|].
  apply (checkPayments_leaves_unlisted (calm ["hash:pr1"; "hash:pr2"] [])
           (start archived) "m1" H).
Defined.

Lemma cleanAndExpandPath_tilde_witness :
  let expand := cleanAndExpandPath id id (Some "/home/alice") "/root" in
  expand (String.append "~" "/firebase~1.json") =
    id (id (String.append (homeDir (Some "/home/alice") "/root") "/firebase~1.json")) /\
  (HasPrefix "/etc/~lnd" "~" = false -> expand "/etc/~lnd" = id (id "/etc/~lnd")).
Proof.
  cbv zeta.
  apply (cleanAndExpandPath_tilde id id (Some "/home/alice") "/root"
           "/etc/~lnd" "/firebase~1.json").
Defined.

Lemma getClientConn_keeps_explicit_paths_witness :
  let expand := cleanAndExpandPath id id (Some "/home/alice") "/root" in
  let resolve :=
    getClientConn_paths id id join_slash (Some "/home/alice") "/root" "/data/lnd" in
  expand (tlsCert flags_with_cert) <> defaultTLSCertPath join_slash "/data/lnd" /\
  tlsCert (resolve flags_with_cert) = tlsCert flags_with_cert /\
  rpcMacaroon (resolve flags_with_cert) = "/data/other/admin.macaroon".
Proof.
  cbv zeta.
  assert (cleanAndExpandPath id id (Some "/home/alice") "/root"
            (tlsCert flags_with_cert) <>
          defaultTLSCertPath join_slash "/data/lnd") as H
    by (intros Heq; vm_compute in Heq; discriminate).
  split; [exact H|]. split; [|by vm_compute].
  exact (proj1 (getClientConn_keeps_explicit_paths id id join_slash
                  (Some "/home/alice") "/root" "/data/lnd" flags_with_cert) H).
Defined.

Section SubscriptionFailure.

Variable env : Env.

Lemma serve_cases_ok w :
  router_err env = None ->
  serve env w =
  match listen_err env with
  | None => (Blocked, advance w 0 [EvListenAndServe (httpsEnabled env)])
  | Some lerr =>
      (Exited 1,
       advance w 0 [EvListenAndServe (httpsEnabled env);
                    EvLogFatalln [error_string lerr]])
  end.
Proof.
  intros Hr. unfold serve. rewrite Hr.
  rewrite (bind_eq _ _ _ _ _ (emit_eq _ _)).
  destruct (listen_err env) as [lerr|]; [|done].
  unfold log_Fatal. rewrite (bind_eq _ _ _ _ _ (emit_eq _ _)).
  unfold os_Exit. by rewrite advance_advance.
Qed.

(** X12. When lnd refuses the subscription, [watchInvoices] prints the error
    and returns without a receive, and [main] goes on to the front end: with
    the router built it calls [ListenAndServe], and the process then serves
    with no stream consumer, or, when the listener fails, logs that error
    and exits with status 1. *)
Theorem main_serves_without_consumer (w : World) (err : error) :
  let w0 := advance w 0 [EvNewApp None; EvFirestore None] in
  let w1 := (checkPayments env w0).2 in
  newapp_err env = None ->
  firestore_err env = None ->
  (checkPayments env w0).1 = Returned tt ->
  dial_err env (now w1) = None ->
  subscribe_invoices env (S (now w1)) = Err err ->
  router_err env = None ->
  main_entry env FlagsParsed w =
  match listen_err env with
  | None =>
      (Blocked,
       advance w1 2
         [EvDial None; EvSubscribeInvoices (Some err);
          EvPrintln [error_string err]; EvConnClose;
          EvListenAndServe (httpsEnabled env)])
  | Some lerr =>
      (Exited 1,
       advance w1 2
         [EvDial None; EvSubscribeInvoices (Some err);
          EvPrintln [error_string err]; EvConnClose;
          EvListenAndServe (httpsEnabled env);
          EvLogFatalln [error_string lerr]])
  end.
Proof.
  intros w0 w1 Ha Hf Hret Hd Hs Hr. cbn [main_entry].
  rewrite main_started by done. fold w0.
  assert (checkPayments env w0 = (Returned tt, w1)) as Hrun.
  { subst w1. destruct (checkPayments env w0); cbn in *. by subst. }
  rewrite (bind_eq _ _ _ _ _ Hrun).
  rewrite (bind_eq _ _ _ _ _ (watchInvoices_subscribe_failed env _ _ Hd Hs)).
  rewrite (serve_cases_ok _ Hr).
  destruct (listen_err env); by rewrite advance_advance.
Qed.

End SubscriptionFailure.

Lemma main_serves_without_consumer_witness :
  let env := subscription_down in
  let err := RpcError "permission denied" in
  let w0 := advance (start twins) 0 [EvNewApp None; EvFirestore None] in
  let w1 := (checkPayments env w0).2 in
  newapp_err env = None /\
  firestore_err env = None /\
  (checkPayments env w0).1 = Returned tt /\
  dial_err env (now w1) = None /\
  subscribe_invoices env (S (now w1)) = Err err /\
  router_err env = None /\
  main_entry env FlagsParsed (start twins) =
  match listen_err env with
  | None =>
      (Blocked,
       advance w1 2
         [EvDial None; EvSubscribeInvoices (Some err);
          EvPrintln [error_string err]; EvConnClose;
          EvListenAndServe (httpsEnabled env)])
  | Some lerr =>
      (Exited 1,
       advance w1 2
         [EvDial None; EvSubscribeInvoices (Some err);
          EvPrintln [error_string err]; EvConnClose;
          EvListenAndServe (httpsEnabled env);
          EvLogFatalln [error_string lerr]])
  end.
Proof.
  cbv zeta. do 2 (split; [reflexivity|]).
  split; [vm_compute; reflexivity|]. do 3 (split; [reflexivity|]).
  apply (main_serves_without_consumer subscription_down (start twins)
           (RpcError "permission denied"));
    [reflexivity|reflexivity|vm_compute; reflexivity|reflexivity|reflexivity
    |reflexivity].
Defined.
